(** * Path-integration rover: a shallow embedding of [sensor.py] and [rover.py]

    The Python sources compute with numpy [float64] values.  This development
    reads every float as a real number (exact arithmetic), every 2-element
    numpy array as a pair of reals, and every Python list as a [list].
    Console output ([print]) is not part of the state and is left out.

    numpy's process-wide random generator is explicit state: the stream of
    standard normal deviates it is going to produce, and a cursor into it. *)

From Stdlib Require Import Reals Lra Lia List ZArith.
Import ListNotations.
Open Scope R_scope.

(* ================================================================== *)
(** ** numpy and Python primitives *)
(* ================================================================== *)

Module Np.

(** A numpy array of shape (2,). *)
Definition vec : Type := (R * R)%type.

Definition vadd (a b : vec) : vec := (fst a + fst b, snd a + snd b).
Definition vsub (a b : vec) : vec := (fst a - fst b, snd a - snd b).

(** [np.linalg.norm] on a vector of two components. *)
Definition norm (v : vec) : R := sqrt (fst v * fst v + snd v * snd v).

(** [np.deg2rad]. *)
Definition deg2rad (d : R) : R := d * (PI / 180).

(** [np.arctan2 y x]: the angle of the point (x, y), in (-pi, pi]. *)
Definition arctan2 (y x : R) : R :=
  match total_order_T x 0 with
  | inleft (left _) =>                    (* x < 0 *)
      if Rle_dec 0 y then atan (y / x) + PI else atan (y / x) - PI
  | inleft (right _) =>                   (* x = 0 *)
      match total_order_T y 0 with
      | inleft (left _) => - (PI / 2)
      | inleft (right _) => 0
      | inright _ => PI / 2
      end
  | inright _ => atan (y / x)             (* x > 0 *)
  end.

(** Python's [a % m] on floats, for a positive modulus: the result has the
    sign of [m], that is [a - floor (a / m) * m]. *)
Definition pymod (a m : R) : R := a - IZR (Int_part (a / m)) * m.

(** The smallest integer not below [x] ([math.ceil]). *)
Definition ceil (x : R) : Z := (1 - up (- x))%Z.

(** The state of the global [np.random] generator. *)
Record rng : Type := mkRng {
  gauss : nat -> R;      (* the standard normal deviates to come *)
  cursor : nat           (* how many have been drawn *)
}.

End Np.

Import Np.

(** Exceptions.  [ValueError] is what [np.random.normal] raises on a negative
    scale.  [InvalidConfiguration] is the error named by the specification. *)
Inductive exn : Type := ValueError | InvalidConfiguration.

(** What a call does: it returns, it raises, or (for the homing loop, run for
    a bounded number of iterations) it is still running. *)
Inductive outcome (A : Type) : Type :=
| Returns (a : A)
| Raises (e : exn)
| Running.
Arguments Returns {A} a.
Arguments Raises {A} e.
Arguments Running {A}.

Definition bind {A B : Type} (m : outcome A) (k : A -> outcome B) : outcome B :=
  match m with
  | Returns a => k a
  | Raises e => Raises e
  | Running => Running
  end.

Notation "x <- m ;; k" := (bind m (fun x => k))
  (at level 61, m at next level, right associativity).

(** The generator after one more draw. *)
Definition advance (g : rng) : rng :=
  {| gauss := gauss g; cursor := S (cursor g) |}.

(** [np.random.normal(loc, scale)]: one draw from the generator, scaled and
    shifted; a negative scale is rejected before anything is drawn. *)
Definition random_normal (loc scale : R) (g : rng) : outcome (R * rng) :=
  if Rlt_dec scale 0 then Raises ValueError
  else Returns (loc + scale * gauss g (cursor g), advance g).

(* ================================================================== *)
(** ** sensor.py *)
(* ================================================================== *)

Record PolarizedLightSensor : Type := mkSensor {
  noise_level : R;
  sun_azimuth : R
}.

Module Sensor.

(** [PolarizedLightSensor.__init__] *)
Definition init (noise : R) : outcome PolarizedLightSensor :=
  Returns {| noise_level := noise; sun_azimuth := 0 |}.

(** [set_sun_position] *)
Definition set_sun_position (azimuth_degrees : R) (s : PolarizedLightSensor)
  : PolarizedLightSensor :=
  {| noise_level := noise_level s; sun_azimuth := deg2rad azimuth_degrees |}.

(** [get_sun_direction] *)
Definition get_sun_direction (s : PolarizedLightSensor) (g : rng)
  : outcome (R * rng) :=
  ng <- random_normal 0 (noise_level s) g ;;
  Returns (sun_azimuth s + fst ng, snd ng).

(** [get_sun_vector] *)
Definition get_sun_vector (s : PolarizedLightSensor) (g : rng)
  : outcome (vec * rng) :=
  ag <- get_sun_direction s g ;;
  Returns ((cos (fst ag), sin (fst ag)), snd ag).

(** [calibrate] *)
Definition calibrate (known_sun_position : R) (s : PolarizedLightSensor)
  : PolarizedLightSensor :=
  set_sun_position known_sun_position s.

End Sensor.

(* ================================================================== *)
(** ** rover.py *)
(* ================================================================== *)

Record AntInspiredRover : Type := mkRover {
  position : vec;
  home : vec;
  home_vector : vec;
  heading : R;
  distance_traveled : R;
  sensor : PolarizedLightSensor;
  speed : R;
  path_history : list vec;
  home_vector_history : list vec
}.

(** [AntInspiredRover.__init__] *)
Definition init (start_position : vec) (sensor_noise : R)
  : outcome AntInspiredRover :=
  s <- Sensor.init sensor_noise ;;
  Returns {| position := start_position;
             home := start_position;
             home_vector := (0, 0);
             heading := 0;
             distance_traveled := 0;
             sensor := s;
             speed := 1;
             path_history := [start_position];
             home_vector_history := [(0, 0)] |}.

(** [move_forward] *)
Definition move_forward (distance : R) (r : AntInspiredRover)
  : AntInspiredRover :=
  let movement := (distance * cos (heading r), distance * sin (heading r)) in
  let position' := vadd (position r) movement in
  let home_vector' := vsub (home_vector r) movement in
  {| position := position';
     home := home r;
     home_vector := home_vector';
     heading := heading r;
     distance_traveled := distance_traveled r + distance;
     sensor := sensor r;
     speed := speed r;
     path_history := path_history r ++ [position'];
     home_vector_history := home_vector_history r ++ [home_vector'] |}.

Definition set_heading (h : R) (r : AntInspiredRover) : AntInspiredRover :=
  {| position := position r;
     home := home r;
     home_vector := home_vector r;
     heading := h;
     distance_traveled := distance_traveled r;
     sensor := sensor r;
     speed := speed r;
     path_history := path_history r;
     home_vector_history := home_vector_history r |}.

(** [turn] *)
Definition turn (angle_degrees : R) (r : AntInspiredRover) : AntInspiredRover :=
  let h := heading r + deg2rad angle_degrees in
  set_heading (pymod h (2 * PI)) r.

(** [align_to_sun] *)
Definition align_to_sun (target_angle_to_sun : R) (r : AntInspiredRover)
  (g : rng) : outcome (AntInspiredRover * rng) :=
  sg <- Sensor.get_sun_direction (sensor r) g ;;
  let sun_direction := fst sg in
  let target_heading := sun_direction + deg2rad target_angle_to_sun in
  let turn_needed := target_heading - heading r in
  let turn_needed := arctan2 (sin turn_needed) (cos turn_needed) in
  Returns (set_heading target_heading r, snd sg).

(** [get_home_direction] *)
Definition get_home_direction (r : AntInspiredRover) : R :=
  if Rlt_dec (norm (home_vector r)) (1 / 100) then heading r
  else arctan2 (snd (home_vector r)) (fst (home_vector r)).

(** [get_home_distance] *)
Definition get_home_distance (r : AntInspiredRover) : R :=
  norm (home_vector r).

(** [navigate_home] *)
Definition navigate_home (r : AntInspiredRover) : AntInspiredRover :=
  let home_direction := get_home_direction r in
  set_heading home_direction r.

(** [execute_foraging_run] *)
Fixpoint execute_foraging_run (moves : list (R * R)) (r : AntInspiredRover)
  : AntInspiredRover :=
  match moves with
  | [] => r
  | (angle, distance) :: rest =>
      execute_foraging_run rest (move_forward distance (turn angle r))
  end.

(** One pass through the body of the [while] loop of [execute_return_home]. *)
Definition homing_iteration (step_size : R) (r : AntInspiredRover)
  : AntInspiredRover :=
  let r1 := navigate_home r in
  let move_distance := Rmin step_size (get_home_distance r1) in
  move_forward move_distance r1.

(** The [while] loop of [execute_return_home], run for at most [fuel]
    iterations. *)
Fixpoint return_home_loop (fuel : nat) (step_size : R) (steps : nat)
  (r : AntInspiredRover) : outcome (nat * AntInspiredRover) :=
  if Rgt_dec (get_home_distance r) (1 / 2) then
    match fuel with
    | O => Running
    | S fuel' =>
        return_home_loop fuel' step_size (S steps) (homing_iteration step_size r)
    end
  else Returns (steps, r).

(** [execute_return_home] *)
Definition execute_return_home (fuel : nat) (step_size : R)
  (r : AntInspiredRover) : outcome (nat * AntInspiredRover) :=
  return_home_loop fuel step_size 0 r.

(** [get_path_efficiency] *)
Definition get_path_efficiency (r : AntInspiredRover) : R :=
  let straight_line := norm (vsub (position r) (home r)) in
  if Req_dec_T (distance_traveled r) 0 then 1
  else straight_line / distance_traveled r.

(* ================================================================== *)
(** ** Sequences of calls *)
(* ================================================================== *)

(** The calls a client can make on a rover and on the sensor it owns
    ([rover.sensor] is a public attribute).  The queries [get_home_direction],
    [get_home_distance] and [get_path_efficiency] are functions of the state
    above; the two sensor readings are listed because they consume a draw. *)
Inductive command : Type :=
| Turn (angle_degrees : R)
| MoveForward (distance : R)
| AlignToSun (target_angle_to_sun : R)
| NavigateHome
| SetSunPosition (azimuth_degrees : R)
| Calibrate (known_sun_position : R)
| GetSunDirection
| GetSunVector.

(** A rover together with the generator its sensor draws from. *)
Definition world : Type := (AntInspiredRover * rng)%type.

Definition set_sensor (s : PolarizedLightSensor) (r : AntInspiredRover)
  : AntInspiredRover :=
  {| position := position r;
     home := home r;
     home_vector := home_vector r;
     heading := heading r;
     distance_traveled := distance_traveled r;
     sensor := s;
     speed := speed r;
     path_history := path_history r;
     home_vector_history := home_vector_history r |}.

Definition exec (c : command) (w : world) : outcome world :=
  let (r, g) := w in
  match c with
  | Turn a => Returns (turn a r, g)
  | MoveForward d => Returns (move_forward d r, g)
  | AlignToSun t => align_to_sun t r g
  | NavigateHome => Returns (navigate_home r, g)
  | SetSunPosition a =>
      Returns (set_sensor (Sensor.set_sun_position a (sensor r)) r, g)
  | Calibrate a => Returns (set_sensor (Sensor.calibrate a (sensor r)) r, g)
  | GetSunDirection =>
      ag <- Sensor.get_sun_direction (sensor r) g ;; Returns (r, snd ag)
  | GetSunVector =>
      vg <- Sensor.get_sun_vector (sensor r) g ;; Returns (r, snd vg)
  end.

Fixpoint run (cs : list command) (w : world) : outcome world :=
  match cs with
  | [] => Returns w
  | c :: cs' => w' <- exec c w ;; run cs' w'
  end.

(** How many [move_forward] calls a sequence makes. *)
Fixpoint move_calls (cs : list command) : nat :=
  match cs with
  | [] => 0
  | MoveForward _ :: cs' => S (move_calls cs')
  | _ :: cs' => move_calls cs'
  end.

(** Every distance passed to [move_forward] in the sequence is non-negative. *)
Fixpoint forward_only (cs : list command) : Prop :=
  match cs with
  | [] => True
  | MoveForward d :: cs' => 0 <= d /\ forward_only cs'
  | _ :: cs' => forward_only cs'
  end.

(** The calls [execute_foraging_run] makes. *)
Definition foraging_commands (moves : list (R * R)) : list command :=
  flat_map (fun m => [Turn (fst m); MoveForward (snd m)]) moves.

(** The state after [n] passes through the homing loop body. *)
Fixpoint after_iterations (n : nat) (step_size : R) (r : AntInspiredRover)
  : AntInspiredRover :=
  match n with
  | O => r
  | S n' => after_iterations n' step_size (homing_iteration step_size r)
  end.

(** The calls the homing loop makes in its first [n] iterations. *)
Fixpoint homing_commands (n : nat) (step_size : R) (r : AntInspiredRover)
  : list command :=
  match n with
  | O => []
  | S n' =>
      NavigateHome
        :: MoveForward (Rmin step_size (get_home_distance (navigate_home r)))
        :: homing_commands n' step_size (homing_iteration step_size r)
  end.

(** The path-integration invariant. *)
Definition integrated (r : AntInspiredRover) : Prop :=
  home_vector r = vsub (home r) (position r).

(** Every logged pair of snapshots satisfies the invariant too. *)
Definition integrated_log (r : AntInspiredRover) : Prop :=
  Forall2 (fun p hv => hv = vsub (home r) p)
    (path_history r) (home_vector_history r).

(** The last entry of each log is the current state. *)
Definition logs_current (r : AntInspiredRover) : Prop :=
  (forall d, last (path_history r) d = position r)
  /\ (forall d, last (home_vector_history r) d = home_vector r).

(** The sum of the distances passed to [move_forward], with their signs. *)
Fixpoint signed_total (cs : list command) : R :=
  match cs with
  | [] => 0
  | MoveForward d :: cs' => d + signed_total cs'
  | _ :: cs' => signed_total cs'
  end.

(** The rover built by [AntInspiredRover((0, 0))], with the default noise. *)
Definition nest : AntInspiredRover :=
  {| position := (0, 0);
     home := (0, 0);
     home_vector := (0, 0);
     heading := 0;
     distance_traveled := 0;
     sensor := {| noise_level := 1 / 20; sun_azimuth := 0 |};
     speed := 1;
     path_history := [(0, 0)];
     home_vector_history := [(0, 0)] |}.

(** Two rovers that differ at most in heading and sensor. *)
Definition same_track (r r' : AntInspiredRover) : Prop :=
  position r' = position r
  /\ home r' = home r
  /\ home_vector r' = home_vector r
  /\ distance_traveled r' = distance_traveled r
  /\ path_history r' = path_history r
  /\ home_vector_history r' = home_vector_history r.

(** A generator whose first deviate is 0 and whose later ones are pi. *)
Definition swinging : rng :=
  {| gauss := fun n => match n with O => 0 | S _ => PI end; cursor := 0 |}.

(** A sensor of noise level 1, sun at azimuth 0. *)
Definition unit_noise_sensor : PolarizedLightSensor :=
  {| noise_level := 1; sun_azimuth := 0 |}.

(** The number of homing iterations from home distance [D] with step
    [step_size]: the least [n] with [D - n * step_size <= 1/2]. *)
Definition homing_steps (step_size D : R) : nat :=
  Z.to_nat (ceil ((D - 1 / 2) / step_size)).

(** [n] is the number of iterations the loop makes from distance [D]. *)
Definition stops_after (step_size D : R) (n : nat) : Prop :=
  D - INR n * step_size <= 1 / 2
  /\ (n = 0%nat \/ 1 / 2 < D - INR (n - 1) * step_size).

(** The rover after [move_forward(1.4)] from the nest. *)
Definition outbound : AntInspiredRover := move_forward (7 / 5) nest.

(** The rover built by [AntInspiredRover((0, 0), sensor_noise=0)]. *)
Definition silent_nest : AntInspiredRover :=
  {| position := (0, 0);
     home := (0, 0);
     home_vector := (0, 0);
     heading := 0;
     distance_traveled := 0;
     sensor := {| noise_level := 0; sun_azimuth := 0 |};
     speed := 1;
     path_history := [(0, 0)];
     home_vector_history := [(0, 0)] |}.

(** That rover after [move_forward(1.4)]. *)
Definition silent_outbound : AntInspiredRover := move_forward (7 / 5) silent_nest.

(** A generator that only ever produces the deviate 0. *)
Definition quiet : rng := {| gauss := fun _ => 0; cursor := 0 |}.

(* ================================================================== *)
(** ** simulation.py *)
(* ================================================================== *)

(** The sum of the distances of a foraging script. *)
Definition script_length (moves : list (R * R)) : R :=
  fold_right (fun m acc => snd m + acc) 0 moves.

(** What applying a function to the value a call returns gives. *)
Definition outcome_map {A B : Type} (f : A -> B) (m : outcome A) : outcome B :=
  x <- m ;; Returns (f x).

(** [home_distances] of [visualize_simulation], which is also the distance
    the animation prints at each frame: the straight-line distance from home
    of every logged position. *)
Definition home_distances (rover : AntInspiredRover) : list R :=
  map (fun pos => norm (vsub pos (home rover))) (path_history rover).

Module Simulation.

Record NavigationSimulation : Type := mkSimulation {
  sun_azimuth : R;           (* in degrees *)
  home_position : vec
}.

(** [run_single_simulation]; the homing loop runs for at most [fuel]
    iterations. *)
Definition run_single_simulation (fuel : nat) (self : NavigationSimulation)
  (foraging_moves : list (R * R)) (sensor_noise : R)
  : outcome AntInspiredRover :=
  rover <- init (home_position self) sensor_noise ;;
  let rover :=
    set_sensor (Sensor.set_sun_position (sun_azimuth self) (sensor rover))
      rover in
  let rover := execute_foraging_run foraging_moves rover in
  sr <- execute_return_home fuel 1 rover ;;
  let steps_to_home := fst sr in
  let rover := snd sr in
  let total_distance := distance_traveled rover in
  let straight_line := norm (vsub (position rover) (home rover)) in
  Returns rover.

(** One entry of the [results] list of [compare_simulations]. *)
Record comparison : Type := mkComparison {
  noise : R;
  final_error : R;
  total_distance : R
}.

(** The foraging pattern [compare_simulations] uses for every run. *)
Definition standard_pattern : list (R * R) :=
  [(45, 15); (-30, 20); (60, 10); (-45, 18)].

(** The [results] list that [compare_simulations] builds and then plots. *)
Fixpoint compare_simulations (fuel : nat) (self : NavigationSimulation)
  (noise_levels : list R) : outcome (list comparison) :=
  match noise_levels with
  | [] => Returns []
  | level :: rest =>
      rover <- run_single_simulation fuel self standard_pattern level ;;
      results <- compare_simulations fuel self rest ;;
      Returns ({| noise := level;
                  final_error := norm (vsub (position rover) (home rover));
                  total_distance := distance_traveled rover |} :: results)
  end.

(** [NavigationSimulation.__init__] *)
Definition init : NavigationSimulation :=
  {| sun_azimuth := 90; home_position := (0, 0) |}.

End Simulation.

(* ================================================================== *)
(** ** Facts about the numpy primitives *)
(* ================================================================== *)


Lemma norm_nonneg (v : vec) : 0 <= norm v.
Proof. apply sqrt_pos. Qed.

Lemma sumsq_nonneg (x y : R) : 0 <= x * x + y * y.
Proof. nra. Qed.

Lemma norm_sqr (v : vec) : norm v * norm v = fst v * fst v + snd v * snd v.
Proof. unfold norm. apply sqrt_sqrt, sumsq_nonneg. Qed.

Lemma norm_eq (v : vec) (n : R) :
  0 <= n -> n * n = fst v * fst v + snd v * snd v -> norm v = n.
Proof.
  intros Hn Hsq. unfold norm. apply sqrt_lem_1; auto using sumsq_nonneg.
Qed.

Lemma norm_zero : norm (0, 0) = 0.
Proof. apply norm_eq; simpl; lra. Qed.

Lemma norm_scale (k x y : R) : norm (k * x, k * y) = Rabs k * norm (x, y).
Proof.
  apply norm_eq.
  - apply Rmult_le_pos; [apply Rabs_pos | apply norm_nonneg].
  - simpl.
    replace (Rabs k * norm (x, y) * (Rabs k * norm (x, y)))
      with ((Rabs k * Rabs k) * (norm (x, y) * norm (x, y))) by ring.
    rewrite norm_sqr. simpl.
    replace (Rabs k * Rabs k) with (k * k).
    + ring.
    + unfold Rabs. destruct (Rcase_abs k); ring.
Qed.

Lemma sqrt_one_plus_ratio (x y : R) :
  0 < x -> sqrt (1 + (y / x)²) = norm (x, y) / x.
Proof.
  intros Hx. pose proof (norm_nonneg (x, y)) as Hn.
  pose proof (norm_sqr (x, y)) as Hs. simpl in Hs.
  apply sqrt_lem_1.
  - unfold Rsqr. nra.
  - apply Rmult_le_pos; [lra | left; apply Rinv_0_lt_compat; lra].
  - unfold Rsqr.
    replace (norm (x, y) / x * (norm (x, y) / x))
      with ((norm (x, y) * norm (x, y)) / (x * x)) by (field; lra).
    rewrite Hs. field. lra.
Qed.

Lemma norm_pos_of_fst (x y : R) : x <> 0 -> 0 < norm (x, y).
Proof.
  intros Hx. pose proof (norm_nonneg (x, y)) as Hn.
  pose proof (norm_sqr (x, y)) as Hs. simpl in Hs.
  destruct Hn as [Hn | Hn]; [assumption | exfalso].
  rewrite <- Hn in Hs. nra.
Qed.

Lemma cos_atan_ratio (x y : R) :
  0 < x -> cos (atan (y / x)) = x / norm (x, y).
Proof.
  intros Hx. rewrite cos_atan, sqrt_one_plus_ratio by assumption.
  pose proof (norm_pos_of_fst x y). field. lra.
Qed.

Lemma sin_atan_ratio (x y : R) :
  0 < x -> sin (atan (y / x)) = y / norm (x, y).
Proof.
  intros Hx. rewrite sin_atan, sqrt_one_plus_ratio by assumption.
  pose proof (norm_pos_of_fst x y). field. lra.
Qed.

Lemma norm_neg (x y : R) : norm (- x, - y) = norm (x, y).
Proof.
  apply norm_eq; [apply norm_nonneg |]. rewrite norm_sqr. simpl. ring.
Qed.

Lemma norm_axis (y : R) : norm (0, y) = Rabs y.
Proof.
  apply norm_eq; [apply Rabs_pos |]. simpl.
  unfold Rabs. destruct (Rcase_abs y); ring.
Qed.

(** The direction returned by [arctan2] is the direction of the point. *)
Lemma arctan2_unit (x y : R) :
  0 < norm (x, y) ->
  cos (arctan2 y x) = x / norm (x, y) /\ sin (arctan2 y x) = y / norm (x, y).
Proof.
  intros Hpos. unfold arctan2.
  destruct (total_order_T x 0) as [[Hx | Hx] | Hx].
  - assert (Hratio : y / x = (- y) / (- x)) by (field; lra).
    assert (Hc : cos (atan (y / x)) = - x / norm (x, y)).
    { rewrite Hratio, cos_atan_ratio by lra. now rewrite norm_neg. }
    assert (Hs : sin (atan (y / x)) = - y / norm (x, y)).
    { rewrite Hratio, sin_atan_ratio by lra. now rewrite norm_neg. }
    destruct (Rle_dec 0 y).
    + rewrite neg_cos, neg_sin, Hc, Hs. split; field; lra.
    + replace (atan (y / x) - PI) with (- (PI - atan (y / x))) by ring.
      rewrite cos_neg, sin_neg, Rtrigo_facts.cos_pi_minus,
        Rtrigo_facts.sin_pi_minus, Hc, Hs.
      split; field; lra.
  - subst x. rewrite norm_axis in *.
    destruct (total_order_T y 0) as [[Hy | Hy] | Hy].
    + rewrite cos_neg, sin_neg, cos_PI2, sin_PI2.
      rewrite Rabs_left by assumption. split; field; lra.
    + subst y. rewrite Rabs_R0 in Hpos. lra.
    + rewrite cos_PI2, sin_PI2, Rabs_right by lra. split; field; lra.
  - split; [apply cos_atan_ratio | apply sin_atan_ratio]; assumption.
Qed.


(* ================================================================== *)
(** ** Frame lemmas: which call touches which field *)
(* ================================================================== *)

Lemma same_track_refl (r : AntInspiredRover) : same_track r r.
Proof. repeat split. Qed.

Lemma same_track_set_heading (h : R) (r : AntInspiredRover) :
  same_track r (set_heading h r).
Proof. repeat split. Qed.

Lemma same_track_set_sensor (s : PolarizedLightSensor) (r : AntInspiredRover) :
  same_track r (set_sensor s r).
Proof. repeat split. Qed.

Lemma get_sun_direction_cases (s : PolarizedLightSensor) (g : rng) :
  (noise_level s < 0 /\ Sensor.get_sun_direction s g = Raises ValueError)
  \/ (0 <= noise_level s
      /\ Sensor.get_sun_direction s g
         = Returns (sun_azimuth s + (0 + noise_level s * gauss g (cursor g)),
                    advance g)).
Proof.
  unfold Sensor.get_sun_direction, random_normal.
  destruct (Rlt_dec (noise_level s) 0) as [Hneg | Hpos]; simpl.
  - left. split; [assumption | reflexivity].
  - right. split; [lra | reflexivity].
Qed.

(** Every call other than [move_forward] leaves the track alone; a call that
    raises leaves no state behind at all. *)
Lemma exec_frame (c : command) (r r' : AntInspiredRover) (g g' : rng) :
  exec c (r, g) = Returns (r', g') ->
  (exists d, c = MoveForward d /\ r' = move_forward d r /\ g' = g)
  \/ ((forall d, c <> MoveForward d) /\ same_track r r').
Proof.
  destruct c; simpl; intros Hex.
  - right. inversion Hex; subst. split; [discriminate |].
    apply same_track_set_heading.
  - left. inversion Hex; subst. eauto.
  - right. split; [discriminate |]. unfold align_to_sun in Hex.
    destruct (get_sun_direction_cases (sensor r) g) as [[_ Hd] | [_ Hd]];
      rewrite Hd in Hex; simpl in Hex; [discriminate |].
    inversion Hex; subst. apply same_track_set_heading.
  - right. inversion Hex; subst. split; [discriminate |].
    apply same_track_set_heading.
  - right. inversion Hex; subst. split; [discriminate |].
    apply same_track_set_sensor.
  - right. inversion Hex; subst. split; [discriminate |].
    apply same_track_set_sensor.
  - right. split; [discriminate |].
    destruct (get_sun_direction_cases (sensor r) g) as [[_ Hd] | [_ Hd]];
      rewrite Hd in Hex; simpl in Hex; [discriminate |].
    inversion Hex; subst. apply same_track_refl.
  - right. split; [discriminate |]. unfold Sensor.get_sun_vector in Hex.
    destruct (get_sun_direction_cases (sensor r) g) as [[_ Hd] | [_ Hd]];
      rewrite Hd in Hex; simpl in Hex; [discriminate |].
    inversion Hex; subst. apply same_track_refl.
Qed.

(** Induction over a run that returns. *)
Lemma run_ind_returns (P : AntInspiredRover -> Prop) :
  (forall c r r' g g', exec c (r, g) = Returns (r', g') -> P r -> P r') ->
  forall cs r g w, run cs (r, g) = Returns w -> P r -> P (fst w).
Proof.
  intros Hstep cs.
  induction cs as [| c cs IH]; intros r g w Hrun HP; cbn [run] in Hrun.
  - inversion Hrun; subst. assumption.
  - destruct (exec c (r, g)) as [[r1 g1] | e |] eqn:Hex; cbn [bind] in Hrun;
      try discriminate.
    eapply IH; [exact Hrun |]. eapply Hstep; eauto.
Qed.

Lemma init_returns (start : vec) (noise : R) (r0 : AntInspiredRover) :
  init start noise = Returns r0 ->
  position r0 = start /\ home r0 = start /\ home_vector r0 = (0, 0)
  /\ heading r0 = 0 /\ distance_traveled r0 = 0
  /\ path_history r0 = [start] /\ home_vector_history r0 = [(0, 0)].
Proof. intros H. inversion H; subst. simpl. repeat split. Qed.

Lemma init_nest : init (0, 0) (1 / 20) = Returns nest.
Proof. reflexivity. Qed.

(* ================================================================== *)
(** ** The path-integration invariant *)
(* ================================================================== *)

Lemma vsub_self (v : vec) : vsub v v = (0, 0).
Proof. unfold vsub. f_equal; ring. Qed.

Lemma integrated_move_forward (d : R) (r : AntInspiredRover) :
  integrated r -> integrated (move_forward d r).
Proof.
  unfold integrated. intros H. simpl. rewrite H.
  unfold vsub, vadd. simpl. f_equal; ring.
Qed.

Lemma integrated_log_move_forward (d : R) (r : AntInspiredRover) :
  integrated r -> integrated_log r -> integrated_log (move_forward d r).
Proof.
  intros Hi Hl. unfold integrated_log. simpl.
  apply Forall2_app; [exact Hl |].
  constructor; [| constructor].
  exact (integrated_move_forward d r Hi).
Qed.

Lemma integrated_same_track (r r' : AntInspiredRover) :
  same_track r r' ->
  integrated r /\ integrated_log r -> integrated r' /\ integrated_log r'.
Proof.
  intros (Hp & Hh & Hv & _ & Hph & Hvh) [Hi Hl].
  unfold integrated, integrated_log in *.
  rewrite Hp, Hh, Hv, Hph, Hvh. split; assumption.
Qed.

Lemma integrated_exec (c : command) (r r' : AntInspiredRover) (g g' : rng) :
  exec c (r, g) = Returns (r', g') ->
  integrated r /\ integrated_log r -> integrated r' /\ integrated_log r'.
Proof.
  intros Hex [Hi Hl].
  destruct (exec_frame c r r' g g' Hex) as [(d & _ & -> & _) | [_ Hsame]].
  - split; [apply integrated_move_forward | apply integrated_log_move_forward];
      assumption.
  - apply (integrated_same_track r r' Hsame). split; assumption.
Qed.

(** C1. For a rover built at any start position, after any sequence of calls
    (turns and moves with arbitrary real arguments, and the other calls as
    well) that returns, [home_vector = home - position] holds exactly over
    the reals; and it holds of every pair of snapshots that [move_forward]
    logged on the way, that is after every single [move_forward] call. *)
Theorem home_vector_is_home_minus_position :
  forall (start : vec) (noise : R) (g : rng) (cs : list command)
         (r0 : AntInspiredRover) (w : world),
    init start noise = Returns r0 ->
    run cs (r0, g) = Returns w ->
    home_vector (fst w) = vsub (home (fst w)) (position (fst w))
    /\ Forall2 (fun p hv => hv = vsub (home (fst w)) p)
         (path_history (fst w)) (home_vector_history (fst w)).
Proof.
  intros start noise g cs r0 w Hinit Hrun.
  apply (run_ind_returns (fun r => integrated r /\ integrated_log r)
           integrated_exec cs r0 g w Hrun).
  destruct (init_returns _ _ _ Hinit) as (Hp & Hh & Hv & _ & _ & Hph & Hvh).
  unfold integrated, integrated_log. rewrite Hp, Hh, Hv, Hph, Hvh.
  split.
  - symmetry. apply vsub_self.
  - constructor; [| constructor]. symmetry. apply vsub_self.
Qed.

Lemma home_vector_is_home_minus_position_witness :
  exists w : world,
    init (0, 0) (1 / 20) = Returns nest
    /\ run [Turn 30; MoveForward 10; Turn (-75); MoveForward (-4)] (nest, quiet)
       = Returns w
    /\ home_vector (fst w) = vsub (home (fst w)) (position (fst w))
    /\ Forall2 (fun p hv => hv = vsub (home (fst w)) p)
         (path_history (fst w)) (home_vector_history (fst w)).
Proof.
  eexists. split; [reflexivity |]. split; [reflexivity |].
  apply (home_vector_is_home_minus_position (0, 0) (1 / 20) quiet
           [Turn 30; MoveForward 10; Turn (-75); MoveForward (-4)] nest);
    reflexivity.
Defined.

(* ================================================================== *)
(** ** The trajectory logs *)
(* ================================================================== *)

Lemma run_cons (c : command) (cs : list command) (w : world) :
  run (c :: cs) w = (w' <- exec c w ;; run cs w').
Proof. reflexivity. Qed.

Lemma move_forward_appends (d : R) (r : AntInspiredRover) :
  path_history (move_forward d r)
    = path_history r ++ [position (move_forward d r)]
  /\ home_vector_history (move_forward d r)
    = home_vector_history r ++ [home_vector (move_forward d r)].
Proof. split; reflexivity. Qed.

Lemma logs_current_exec (c : command) (r r' : AntInspiredRover) (g g' : rng) :
  exec c (r, g) = Returns (r', g') -> logs_current r -> logs_current r'.
Proof.
  intros Hex [Hp Hv].
  destruct (exec_frame c r r' g g' Hex)
    as [(d & _ & -> & _) | [_ (Hpos & _ & Hhv & _ & Hph & Hvh)]].
  - split; intros dflt; simpl; apply last_last.
  - split; intros dflt.
    + rewrite Hph, Hpos. apply Hp.
    + rewrite Hvh, Hhv. apply Hv.
Qed.

Lemma run_log_lengths (cs : list command) :
  forall (r : AntInspiredRover) (g : rng) (w : world),
    run cs (r, g) = Returns w ->
    length (path_history (fst w))
      = (length (path_history r) + move_calls cs)%nat
    /\ length (home_vector_history (fst w))
      = (length (home_vector_history r) + move_calls cs)%nat.
Proof.
  induction cs as [| c cs IH]; intros r g w Hrun.
  - inversion Hrun; subst. simpl. split; lia.
  - rewrite run_cons in Hrun.
    destruct (exec c (r, g)) as [[r1 g1] | e |] eqn:Hex; cbn [bind] in Hrun;
      try discriminate.
    destruct (IH r1 g1 w Hrun) as [Hlp Hlv]. rewrite Hlp, Hlv.
    destruct (exec_frame c r r1 g g1 Hex)
      as [(d & -> & -> & _) | [Hnot (_ & _ & _ & _ & Hph & Hvh)]].
    + simpl. rewrite !length_app. simpl. split; lia.
    + rewrite Hph, Hvh.
      assert (Hm : move_calls (c :: cs) = move_calls cs).
      { destruct c; try reflexivity. exfalso. eapply Hnot. reflexivity. }
      rewrite Hm. split; reflexivity.
Qed.

Lemma foraging_run_as_commands (moves : list (R * R)) :
  forall (r : AntInspiredRover) (g : rng),
    run (foraging_commands moves) (r, g)
      = Returns (execute_foraging_run moves r, g).
Proof.
  induction moves as [| [angle distance] rest IH]; intros r g.
  - reflexivity.
  - cbn [foraging_commands flat_map app fst snd execute_foraging_run].
    rewrite !run_cons. cbn [exec bind]. apply IH.
Qed.

Lemma homing_commands_run (n : nat) (step_size : R) :
  forall (r : AntInspiredRover) (g : rng),
    run (homing_commands n step_size r) (r, g)
      = Returns (after_iterations n step_size r, g)
    /\ move_calls (homing_commands n step_size r) = n.
Proof.
  induction n as [| n IH]; intros r g.
  - split; reflexivity.
  - cbn [homing_commands after_iterations move_calls].
    rewrite !run_cons. cbn [exec bind].
    destruct (IH (homing_iteration step_size r) g) as [Hrun Hcalls].
    split; [exact Hrun | now rewrite Hcalls].
Qed.

(** A loop that returns has run some number of iterations and stopped at the
    first state within the arrival threshold. *)
Lemma return_home_loop_returns (fuel : nat) (step_size : R) :
  forall (k : nat) (r : AntInspiredRover) (n : nat) (r' : AntInspiredRover),
    return_home_loop fuel step_size k r = Returns (n, r') ->
    exists m : nat,
      (m <= fuel)%nat /\ n = (k + m)%nat
      /\ r' = after_iterations m step_size r
      /\ get_home_distance r' <= 1 / 2.
Proof.
  induction fuel as [| fuel IH]; intros k r n r' Hloop; cbn [return_home_loop] in Hloop.
  - destruct (Rgt_dec (get_home_distance r) (1 / 2)); [discriminate |].
    inversion Hloop; subst. exists 0%nat. simpl. repeat split; try lia. lra.
  - destruct (Rgt_dec (get_home_distance r) (1 / 2)).
    + destruct (IH _ _ _ _ Hloop) as (m & Hle & -> & -> & Hd).
      exists (S m). simpl. repeat split; try lia. assumption.
    + inversion Hloop; subst. exists 0%nat. simpl. repeat split; try lia. lra.
Qed.

(** C10. [move_forward] appends exactly one snapshot, the state after the
    move, to each of the two logs, whatever the distance; no other call
    touches the logs; so after any sequence of calls on a new rover both logs
    have length 1 + the number of [move_forward] calls and end in the current
    position and home vector.  The two compound methods are sequences of
    these calls: the foraging run of one turn and one move per pair, the
    homing loop of one [navigate_home] and one [move_forward] per step. *)
Theorem trajectory_logs_follow_move_forward :
  (forall (d : R) (r : AntInspiredRover),
      path_history (move_forward d r)
        = path_history r ++ [position (move_forward d r)]
      /\ home_vector_history (move_forward d r)
        = home_vector_history r ++ [home_vector (move_forward d r)])
  /\ (forall (c : command) (r r' : AntInspiredRover) (g g' : rng),
      exec c (r, g) = Returns (r', g') ->
      (forall d, c <> MoveForward d) ->
      path_history r' = path_history r
      /\ home_vector_history r' = home_vector_history r)
  /\ (forall (start : vec) (noise : R) (g : rng) (cs : list command)
             (r0 : AntInspiredRover) (w : world),
      init start noise = Returns r0 ->
      run cs (r0, g) = Returns w ->
      length (path_history (fst w)) = (1 + move_calls cs)%nat
      /\ length (home_vector_history (fst w)) = (1 + move_calls cs)%nat
      /\ (forall d, last (path_history (fst w)) d = position (fst w))
      /\ (forall d, last (home_vector_history (fst w)) d
                    = home_vector (fst w)))
  /\ (forall (moves : list (R * R)) (r : AntInspiredRover) (g : rng),
      run (foraging_commands moves) (r, g)
        = Returns (execute_foraging_run moves r, g)
      /\ move_calls (foraging_commands moves) = length moves)
  /\ (forall (fuel : nat) (step_size : R) (r r' : AntInspiredRover)
             (n : nat) (g : rng),
      execute_return_home fuel step_size r = Returns (n, r') ->
      run (homing_commands n step_size r) (r, g) = Returns (r', g)
      /\ move_calls (homing_commands n step_size r) = n).
Proof.
  split; [exact move_forward_appends |].
  split.
  { intros c r r' g g' Hex Hnot.
    destruct (exec_frame c r r' g g' Hex)
      as [(d & -> & _) | [_ (_ & _ & _ & _ & Hph & Hvh)]].
    - exfalso. eapply Hnot. reflexivity.
    - split; assumption. }
  split.
  { intros start noise g cs r0 w Hinit Hrun.
    destruct (init_returns _ _ _ Hinit) as (Hp & _ & Hv & _ & _ & Hph & Hvh).
    destruct (run_log_lengths cs r0 g w Hrun) as [Hlp Hlv].
    rewrite Hph in Hlp. rewrite Hvh in Hlv.
    split; [exact Hlp |]. split; [exact Hlv |].
    apply (run_ind_returns logs_current logs_current_exec cs r0 g w Hrun).
    split; intros d.
    - rewrite Hph, Hp. reflexivity.
    - rewrite Hvh, Hv. reflexivity. }
  split.
  { intros moves r g. split; [apply foraging_run_as_commands |].
    induction moves as [| m rest IH]; [reflexivity |].
    cbn [foraging_commands flat_map app move_calls length].
    f_equal. exact IH. }
  intros fuel step_size r r' n g Hret.
  unfold execute_return_home in Hret.
  destruct (return_home_loop_returns _ _ _ _ _ _ Hret) as (m & _ & -> & -> & _).
  apply homing_commands_run.
Qed.

Lemma trajectory_logs_follow_move_forward_witness :
  exists w : world,
    init (0, 0) (1 / 20) = Returns nest
    /\ run [Turn 90; MoveForward 5; NavigateHome; MoveForward 0;
            MoveForward (-2)] (nest, quiet) = Returns w
    /\ length (path_history (fst w)) = 4%nat
    /\ length (home_vector_history (fst w)) = 4%nat
    /\ (forall d, last (path_history (fst w)) d = position (fst w))
    /\ (forall d, last (home_vector_history (fst w)) d = home_vector (fst w)).
Proof.
  eexists. split; [reflexivity |]. split; [reflexivity |].
  apply (proj1 (proj2 (proj2 trajectory_logs_follow_move_forward))
           (0, 0) (1 / 20) quiet
           [Turn 90; MoveForward 5; NavigateHome; MoveForward 0;
            MoveForward (-2)] nest);
    reflexivity.
Defined.

(* ================================================================== *)
(** ** The odometer *)
(* ================================================================== *)

Lemma forward_only_total (cs : list command) :
  forward_only cs -> 0 <= signed_total cs.
Proof.
  induction cs as [| c cs IH]; simpl; [lra |].
  destruct c; simpl; auto. intros [Hd Hcs]. specialize (IH Hcs). lra.
Qed.

Lemma run_odometer (cs : list command) :
  forall (r : AntInspiredRover) (g : rng) (w : world),
    run cs (r, g) = Returns w ->
    distance_traveled (fst w) = distance_traveled r + signed_total cs.
Proof.
  induction cs as [| c cs IH]; intros r g w Hrun.
  - inversion Hrun; subst. simpl. ring.
  - rewrite run_cons in Hrun.
    destruct (exec c (r, g)) as [[r1 g1] | e |] eqn:Hex; cbn [bind] in Hrun;
      try discriminate.
    rewrite (IH r1 g1 w Hrun).
    destruct (exec_frame c r r1 g g1 Hex)
      as [(d & -> & -> & _) | [Hnot (_ & _ & _ & Hodo & _)]].
    + simpl. ring.
    + rewrite Hodo. f_equal.
      destruct c; try reflexivity. exfalso. eapply Hnot. reflexivity.
Qed.

(** C7, as the code has it.  The odometer is the signed sum of the distances
    passed to [move_forward]: no other call changes it, and [move_forward]
    adds its argument as it is.  Over a sequence in which every distance is
    non-negative the odometer does not decrease, and stays non-negative if it
    was. *)
Theorem odometer_is_signed_sum :
  forall (cs : list command) (r : AntInspiredRover) (g : rng) (w : world),
    run cs (r, g) = Returns w ->
    distance_traveled (fst w) = distance_traveled r + signed_total cs
    /\ (forward_only cs ->
        distance_traveled r <= distance_traveled (fst w)
        /\ (0 <= distance_traveled r -> 0 <= distance_traveled (fst w))).
Proof.
  intros cs r g w Hrun. pose proof (run_odometer cs r g w Hrun) as Hodo.
  split; [exact Hodo |].
  intros Hfwd. pose proof (forward_only_total cs Hfwd). lra.
Qed.

Lemma odometer_is_signed_sum_witness :
  exists w : world,
    run [Turn 45; MoveForward 3; AlignToSun 0; MoveForward 0] (nest, quiet)
      = Returns w
    /\ forward_only [Turn 45; MoveForward 3; AlignToSun 0; MoveForward 0]
    /\ distance_traveled (fst w)
       = distance_traveled nest
         + signed_total [Turn 45; MoveForward 3; AlignToSun 0; MoveForward 0]
    /\ distance_traveled nest <= distance_traveled (fst w).
Proof.
  assert (Hrun : exists w : world,
             run [Turn 45; MoveForward 3; AlignToSun 0; MoveForward 0]
               (nest, quiet) = Returns w).
  { cbn [run exec bind]. unfold align_to_sun.
    destruct (get_sun_direction_cases (sensor (move_forward 3 (turn 45 nest)))
                quiet) as [[Hneg _] | [_ Hd]].
    - simpl in Hneg. lra.
    - rewrite Hd. cbn [bind]. eexists. reflexivity. }
  destruct Hrun as [w Hrun]. exists w.
  assert (Hfwd : forward_only
                   [Turn 45; MoveForward 3; AlignToSun 0; MoveForward 0]).
  { simpl. repeat split; lra. }
  destruct (odometer_is_signed_sum _ nest quiet w Hrun) as [Hsum Hmono].
  split; [exact Hrun |]. split; [exact Hfwd |]. split; [exact Hsum |].
  exact (proj1 (Hmono Hfwd)).
Defined.

(** C7, counterexample.  On a new rover [move_forward(-1)] returns and leaves
    the odometer at -1: below its previous value and below zero. *)
Lemma odometer_decreases_on_negative_distance :
  init (0, 0) (1 / 20) = Returns nest
  /\ exec (MoveForward (-1)) (nest, quiet)
     = Returns (move_forward (-1) nest, quiet)
  /\ distance_traveled (move_forward (-1) nest) = -1
  /\ ~ (distance_traveled nest <= distance_traveled (move_forward (-1) nest))
  /\ ~ (0 <= distance_traveled (move_forward (-1) nest)).
Proof.
  split; [reflexivity |]. split; [reflexivity |]. simpl.
  split; [ring |]. split; lra.
Qed.

(* ================================================================== *)
(** ** Orientation towards home *)
(* ================================================================== *)

(** C9. [navigate_home] sets the heading to [get_home_direction()] and
    changes nothing else: position, home, home vector, odometer, sensor and
    both logs are the same, and the random generator is not consulted. *)
Theorem navigate_home_only_sets_heading :
  forall (r : AntInspiredRover) (g : rng),
    heading (navigate_home r) = get_home_direction r
    /\ position (navigate_home r) = position r
    /\ home (navigate_home r) = home r
    /\ home_vector (navigate_home r) = home_vector r
    /\ distance_traveled (navigate_home r) = distance_traveled r
    /\ sensor (navigate_home r) = sensor r
    /\ speed (navigate_home r) = speed r
    /\ path_history (navigate_home r) = path_history r
    /\ home_vector_history (navigate_home r) = home_vector_history r
    /\ exec NavigateHome (r, g) = Returns (navigate_home r, g).
Proof. intros r g. repeat split. Qed.

(* ================================================================== *)
(** ** Path efficiency *)
(* ================================================================== *)

Lemma norm_unit (a : R) : norm (cos a, sin a) = 1.
Proof.
  apply norm_eq; [lra |]. simpl.
  pose proof (sin2_cos2 a) as H. unfold Rsqr in H. lra.
Qed.

Lemma norm_heading_step (d a : R) : norm (d * cos a, d * sin a) = Rabs d.
Proof. rewrite norm_scale, norm_unit. ring. Qed.

(** C8. [get_path_efficiency] returns exactly 1 when the odometer is 0, and
    the unclamped ratio of the straight-line distance from home to the
    odometer otherwise; after one [move_forward] of positive distance from a
    rover that has not moved yet (whatever its heading), it returns 1. *)
Theorem path_efficiency_cases :
  (forall r : AntInspiredRover,
      distance_traveled r = 0 -> get_path_efficiency r = 1)
  /\ (forall r : AntInspiredRover,
      distance_traveled r <> 0 ->
      get_path_efficiency r
        = norm (vsub (position r) (home r)) / distance_traveled r)
  /\ (forall (r : AntInspiredRover) (d : R),
      position r = home r -> distance_traveled r = 0 -> 0 < d ->
      get_path_efficiency (move_forward d r) = 1)
  /\ (forall (start : vec) (noise angle d : R) (r0 : AntInspiredRover),
      init start noise = Returns r0 -> 0 < d ->
      get_path_efficiency (move_forward d r0) = 1
      /\ get_path_efficiency (move_forward d (turn angle r0)) = 1).
Proof.
  assert (Hzero : forall r, distance_traveled r = 0 -> get_path_efficiency r = 1).
  { intros r H. unfold get_path_efficiency.
    destruct (Req_dec_T (distance_traveled r) 0); [reflexivity | contradiction]. }
  assert (Hratio : forall r, distance_traveled r <> 0 ->
            get_path_efficiency r
              = norm (vsub (position r) (home r)) / distance_traveled r).
  { intros r H. unfold get_path_efficiency.
    destruct (Req_dec_T (distance_traveled r) 0); [contradiction | reflexivity]. }
  assert (Hone : forall r d, position r = home r -> distance_traveled r = 0 ->
            0 < d -> get_path_efficiency (move_forward d r) = 1).
  { intros r d Hpos Hodo Hd. rewrite Hratio by (simpl; lra).
    simpl. rewrite Hpos, Hodo.
    replace (vsub (vadd (home r) (d * cos (heading r), d * sin (heading r)))
               (home r))
      with (d * cos (heading r), d * sin (heading r))
      by (unfold vsub, vadd; simpl; f_equal; ring).
    rewrite norm_heading_step, Rabs_right by lra. field. lra. }
  split; [exact Hzero |]. split; [exact Hratio |]. split; [exact Hone |].
  intros start noise angle d r0 Hinit Hd.
  destruct (init_returns _ _ _ Hinit) as (Hp & Hh & _ & _ & Hodo & _).
  split; apply Hone; simpl; congruence || assumption.
Qed.

Lemma path_efficiency_cases_witness :
  init (0, 0) (1 / 20) = Returns nest
  /\ get_path_efficiency nest = 1
  /\ get_path_efficiency (move_forward 10 nest) = 1
  /\ get_path_efficiency (move_forward 10 (turn 90 nest)) = 1.
Proof.
  destruct path_efficiency_cases as (Hzero & _ & _ & Hstraight).
  split; [reflexivity |].
  split; [apply Hzero; reflexivity |].
  apply (Hstraight (0, 0) (1 / 20) 90 10 nest); [reflexivity | lra].
Defined.

(* ================================================================== *)
(** ** The sensor *)
(* ================================================================== *)

Lemma get_sun_direction_returns (s : PolarizedLightSensor) (g : rng) :
  0 <= noise_level s ->
  Sensor.get_sun_direction s g
    = Returns (sun_azimuth s + noise_level s * gauss g (cursor g), advance g).
Proof.
  intros Hpos.
  destruct (get_sun_direction_cases s g) as [[Hneg _] | [_ Hd]]; [lra |].
  rewrite Hd. do 2 f_equal. ring.
Qed.

Lemma get_sun_direction_raises (s : PolarizedLightSensor) (g : rng) :
  noise_level s < 0 -> Sensor.get_sun_direction s g = Raises ValueError.
Proof.
  intros Hneg.
  destruct (get_sun_direction_cases s g) as [[_ Hd] | [Hpos _]];
    [exact Hd | lra].
Qed.

(** A negative noise level is only noticed by numpy, at the first reading. *)
Lemma align_to_sun_raises (target : R) (r : AntInspiredRover) (g : rng) :
  noise_level (sensor r) < 0 -> align_to_sun target r g = Raises ValueError.
Proof.
  intros Hneg. unfold align_to_sun.
  rewrite get_sun_direction_raises by assumption. reflexivity.
Qed.

(** C4, as the code has it.  The sensor has two reading methods and none that
    returns an angle and a vector together.  On a sensor of non-negative
    noise level each of them makes exactly one draw: [get_sun_direction]
    returns the noisy angle only, [get_sun_vector] returns only the unit
    vector (cos a, sin a) of the angle [a] that [get_sun_direction] returns
    from the same generator state.  A second reading uses the next deviate. *)
Theorem each_reading_draws_once :
  forall (s : PolarizedLightSensor) (g : rng),
    0 <= noise_level s ->
    let a := sun_azimuth s + noise_level s * gauss g (cursor g) in
    let a' := sun_azimuth s + noise_level s * gauss g (S (cursor g)) in
    Sensor.get_sun_direction s g = Returns (a, advance g)
    /\ Sensor.get_sun_vector s g = Returns ((cos a, sin a), advance g)
    /\ cursor (advance g) = S (cursor g)
    /\ Sensor.get_sun_vector s (advance g)
       = Returns ((cos a', sin a'), advance (advance g)).
Proof.
  intros s g Hpos a a'. subst a a'.
  split; [apply get_sun_direction_returns; assumption |].
  split.
  { unfold Sensor.get_sun_vector.
    rewrite get_sun_direction_returns by assumption. reflexivity. }
  split; [reflexivity |].
  unfold Sensor.get_sun_vector.
  rewrite get_sun_direction_returns by assumption. reflexivity.
Qed.

Lemma each_reading_draws_once_witness :
  0 <= noise_level unit_noise_sensor
  /\ Sensor.get_sun_direction unit_noise_sensor swinging
     = Returns (0 + 1 * 0, advance swinging)
  /\ Sensor.get_sun_vector unit_noise_sensor swinging
     = Returns ((cos (0 + 1 * 0), sin (0 + 1 * 0)), advance swinging).
Proof.
  assert (Hpos : 0 <= noise_level unit_noise_sensor) by (simpl; lra).
  destruct (each_reading_draws_once unit_noise_sensor swinging Hpos)
    as (Hd & Hv & _).
  split; [exact Hpos |]. split; [exact Hd | exact Hv].
Defined.

(** C4, counterexample.  A caller who wants the angle and the vector of one
    reading has to call both methods, which draws twice: on a sensor of noise
    level 1 whose generator produces 0 and then pi, the angle read is 0 and
    the vector read is (-1, 0), which is not (cos 0, sin 0). *)
Lemma angle_and_vector_come_from_two_draws :
  exists (a : R) (v : vec) (g1 g2 : rng),
    Sensor.get_sun_direction unit_noise_sensor swinging = Returns (a, g1)
    /\ Sensor.get_sun_vector unit_noise_sensor g1 = Returns (v, g2)
    /\ cursor g2 = 2%nat
    /\ a = 0
    /\ v = (-1, 0)
    /\ v <> (cos a, sin a).
Proof.
  assert (Hpos : 0 <= noise_level unit_noise_sensor) by (simpl; lra).
  exists (sun_azimuth unit_noise_sensor
          + noise_level unit_noise_sensor * gauss swinging (cursor swinging)).
  exists (cos PI, sin PI), (advance swinging), (advance (advance swinging)).
  split; [apply get_sun_direction_returns; exact Hpos |].
  split.
  { unfold Sensor.get_sun_vector.
    rewrite get_sun_direction_returns by exact Hpos.
    simpl. replace (0 + 1 * PI) with PI by ring. reflexivity. }
  split; [reflexivity |].
  split; [simpl; ring |].
  split; [rewrite cos_PI, sin_PI; reflexivity |].
  simpl. replace (0 + 1 * 0) with 0 by ring.
  rewrite cos_PI, sin_PI, cos_0, sin_0.
  intros Heq. inversion Heq. lra.
Qed.

(** C5, as the code has it.  The constructor stores whatever noise level it
    is given, negative values included, and sets the azimuth to 0; it never
    raises.  The same holds for the rover's constructor, which builds the
    sensor. *)
Theorem sensor_construction_always_succeeds :
  forall noise : R,
    Sensor.init noise = Returns {| noise_level := noise; sun_azimuth := 0 |}
    /\ (forall e : exn, Sensor.init noise <> Raises e)
    /\ (forall start : vec,
         exists r0 : AntInspiredRover,
           init start noise = Returns r0
           /\ sensor r0 = {| noise_level := noise; sun_azimuth := 0 |}).
Proof.
  intros noise. split; [reflexivity |]. split; [discriminate |].
  intros start. eexists. split; reflexivity.
Qed.

(** C5, counterexample.  Constructing a sensor with noise level -1 returns a
    sensor; it does not raise [InvalidConfiguration]. *)
Lemma negative_noise_level_is_accepted :
  Sensor.init (-1) = Returns {| noise_level := -1; sun_azimuth := 0 |}
  /\ Sensor.init (-1) <> Raises InvalidConfiguration.
Proof. split; [reflexivity | discriminate]. Qed.

(** C6, as the code has it.  On a rover whose sensor has a non-negative noise
    level, [align_to_sun] reads the sensor once (one draw) and stores
    [sample_angle + radians(target)] as the heading as it is, without
    reducing it into [0, 2 pi); nothing else changes. *)
Theorem align_to_sun_sets_absolute_heading :
  forall (target : R) (r : AntInspiredRover) (g : rng),
    0 <= noise_level (sensor r) ->
    let sample_angle :=
      sun_azimuth (sensor r) + noise_level (sensor r) * gauss g (cursor g) in
    exists r' : AntInspiredRover,
      align_to_sun target r g = Returns (r', advance g)
      /\ Sensor.get_sun_direction (sensor r) g
         = Returns (sample_angle, advance g)
      /\ heading r' = sample_angle + deg2rad target
      /\ position r' = position r
      /\ home r' = home r
      /\ home_vector r' = home_vector r
      /\ distance_traveled r' = distance_traveled r
      /\ sensor r' = sensor r
      /\ speed r' = speed r
      /\ path_history r' = path_history r
      /\ home_vector_history r' = home_vector_history r.
Proof.
  intros target r g Hpos sample_angle. subst sample_angle.
  eexists. split.
  - unfold align_to_sun.
    rewrite get_sun_direction_returns by assumption. reflexivity.
  - split; [apply get_sun_direction_returns; assumption |].
    repeat split.
Qed.

Lemma align_to_sun_sets_absolute_heading_witness :
  0 <= noise_level (sensor nest)
  /\ exists r' : AntInspiredRover,
       align_to_sun 450 nest quiet = Returns (r', advance quiet)
       /\ heading r' = 0 + 1 / 20 * 0 + deg2rad 450
       /\ path_history r' = path_history nest.
Proof.
  assert (Hpos : 0 <= noise_level (sensor nest)) by (simpl; lra).
  split; [exact Hpos |].
  destruct (align_to_sun_sets_absolute_heading 450 nest quiet Hpos)
    as (r' & Hal & _ & Hh & _ & _ & _ & _ & _ & _ & Hph & _).
  exists r'. split; [exact Hal |]. split; [exact Hh | exact Hph].
Defined.

(** C6, counterexample.  With the sun at azimuth 0 and a deviate of 0,
    [align_to_sun(-90)] leaves the heading at -pi/2, outside [0, 2 pi). *)
Lemma align_to_sun_heading_not_normalized :
  exists (r' : AntInspiredRover) (g' : rng),
    align_to_sun (-90) nest quiet = Returns (r', g')
    /\ heading r' = - (PI / 2)
    /\ ~ (0 <= heading r' < 2 * PI).
Proof.
  assert (Hpos : 0 <= noise_level (sensor nest)) by (simpl; lra).
  eexists. eexists. split.
  - unfold align_to_sun.
    rewrite get_sun_direction_returns by exact Hpos. reflexivity.
  - simpl. unfold deg2rad. pose proof PI_RGT_0. split; [field | lra].
Qed.

(* ================================================================== *)
(** ** The homing loop *)
(* ================================================================== *)

Lemma ceil_spec (x : R) : IZR (ceil x) - 1 < x <= IZR (ceil x).
Proof.
  unfold ceil. destruct (archimed (- x)) as [Hgt Hle].
  rewrite minus_IZR. simpl. lra.
Qed.

Lemma ceil_unique (x : R) (z : Z) : IZR z - 1 < x <= IZR z -> ceil x = z.
Proof.
  intros [Hlo Hhi]. destruct (ceil_spec x) as [Clo Chi].
  assert (H1 : (ceil x - 1 < z)%Z).
  { apply lt_IZR. rewrite minus_IZR. simpl. lra. }
  assert (H2 : (z - 1 < ceil x)%Z).
  { apply lt_IZR. rewrite minus_IZR. simpl. lra. }
  lia.
Qed.

Lemma ceil_monotone (x y : R) : x <= y -> (ceil x <= ceil y)%Z.
Proof.
  intros Hxy. destruct (ceil_spec x) as [Clo _]. destruct (ceil_spec y) as [_ Chi].
  assert (H : (ceil x - 1 < ceil y)%Z).
  { apply lt_IZR. rewrite minus_IZR. simpl. lra. }
  lia.
Qed.

Lemma after_iterations_succ (n : nat) (step_size : R) (r : AntInspiredRover) :
  after_iterations (S n) step_size r
    = homing_iteration step_size (after_iterations n step_size r).
Proof.
  revert r. induction n as [| n IH]; intros r; [reflexivity |].
  change (after_iterations (S (S n)) step_size r)
    with (after_iterations (S n) step_size (homing_iteration step_size r)).
  rewrite IH. reflexivity.
Qed.

(** One iteration away from the arrival epsilon: the rover faces home, so the
    move shortens the home vector by the distance moved. *)
Lemma homing_iteration_distance (step_size : R) (r : AntInspiredRover) :
  1 / 100 <= get_home_distance r ->
  get_home_distance (homing_iteration step_size r)
    = Rabs (get_home_distance r - Rmin step_size (get_home_distance r)).
Proof.
  unfold get_home_distance. intros Hfar.
  destruct (home_vector r) as [x y] eqn:Hhv.
  set (D := norm (x, y)) in *.
  assert (HD : 0 < D) by lra.
  unfold homing_iteration, navigate_home, get_home_direction, get_home_distance.
  rewrite Hhv. fold D.
  destruct (Rlt_dec D (1 / 100)) as [Hnear | _]; [lra |].
  cbn [move_forward set_heading home_vector heading fst snd].
  rewrite Hhv. fold D.
  destruct (arctan2_unit x y HD) as [Hcos Hsin]. fold D in Hcos, Hsin.
  rewrite Hcos, Hsin.
  set (d := Rmin step_size D).
  replace (vsub (x, y) (d * (x / D), d * (y / D)))
    with ((1 - d / D) * x, (1 - d / D) * y)
    by (unfold vsub; simpl; f_equal; field; lra).
  rewrite norm_scale. fold D.
  replace (D - d) with ((1 - d / D) * D) by (field; lra).
  rewrite Rabs_mult, (Rabs_right D) by lra. reflexivity.
Qed.

Lemma homing_iteration_approaches (step_size : R) (r : AntInspiredRover) :
  0 < step_size -> 1 / 2 < get_home_distance r ->
  get_home_distance (homing_iteration step_size r)
    = get_home_distance r - Rmin step_size (get_home_distance r)
  /\ get_home_distance (homing_iteration step_size r) < get_home_distance r.
Proof.
  intros Hstep Hfar. rewrite homing_iteration_distance by lra.
  pose proof (Rmin_r step_size (get_home_distance r)) as Hr.
  assert (Hmin : 0 < Rmin step_size (get_home_distance r)).
  { apply Rmin_glb_lt; lra. }
  rewrite Rabs_right by lra. split; lra.
Qed.

Lemma homing_iteration_recedes (step_size : R) (r : AntInspiredRover) :
  step_size <= 0 -> 1 / 2 < get_home_distance r ->
  get_home_distance (homing_iteration step_size r)
    = get_home_distance r - step_size.
Proof.
  intros Hstep Hfar. rewrite homing_iteration_distance by lra.
  rewrite Rmin_left by lra. apply Rabs_right. lra.
Qed.

Lemma stops_after_next (step_size D : R) (m : nat) :
  0 < step_size -> stops_after step_size D (S m) ->
  1 / 2 < D /\ stops_after step_size (D - Rmin step_size D) m.
Proof.
  intros Hstep [Hstop [Hzero | Hgo]]; [discriminate |].
  replace (S m - 1)%nat with m in Hgo by lia.
  rewrite S_INR in Hstop. pose proof (pos_INR m) as Hm.
  split; [nra |].
  unfold stops_after. destruct (Rle_dec step_size D) as [Hle | Hgt].
  - rewrite Rmin_left by assumption. split; [lra |].
    destruct m as [| p]; [left; reflexivity | right].
    replace (S p - 1)%nat with p by lia. rewrite S_INR in Hgo. lra.
  - rewrite Rmin_right by lra.
    destruct m as [| p].
    + simpl. split; [lra | left; reflexivity].
    + exfalso. rewrite S_INR in Hgo. pose proof (pos_INR p). nra.
Qed.

Lemma return_home_loop_exact (n : nat) (step_size : R) :
  0 < step_size ->
  forall (r : AntInspiredRover) (fuel k : nat),
    stops_after step_size (get_home_distance r) n ->
    return_home_loop fuel step_size k r
      = if (n <=? fuel)%nat
        then Returns ((k + n)%nat, after_iterations n step_size r)
        else Running.
Proof.
  intros Hstep. induction n as [| m IH]; intros r fuel k Hstop.
  - destruct Hstop as [Hstop _]. simpl in Hstop.
    assert (Hnear : ~ get_home_distance r > 1 / 2) by lra.
    rewrite Nat.add_0_r.
    destruct fuel; cbn [return_home_loop Nat.leb after_iterations];
      destruct (Rgt_dec (get_home_distance r) (1 / 2)); tauto.
  - destruct (stops_after_next _ _ _ Hstep Hstop) as [Hfar Hnext].
    destruct (homing_iteration_approaches step_size r Hstep Hfar) as [Hd _].
    rewrite <- Hd in Hnext.
    destruct fuel as [| fuel]; cbn [return_home_loop];
      destruct (Rgt_dec (get_home_distance r) (1 / 2)) as [_ | Hn];
      try (exfalso; apply Hn; lra).
    + reflexivity.
    + rewrite (IH _ fuel (S k) Hnext).
      change (S m <=? S fuel)%nat with (m <=? fuel)%nat.
      replace (S k + m)%nat with (k + S m)%nat by lia. reflexivity.
Qed.

Lemma homing_steps_stop (step_size D : R) :
  0 < step_size -> stops_after step_size D (homing_steps step_size D).
Proof.
  intros Hstep. unfold homing_steps, stops_after.
  set (x := (D - 1 / 2) / step_size).
  assert (Hx : x * step_size = D - 1 / 2) by (unfold x; field; lra).
  destruct (ceil_spec x) as [Hlo Hhi].
  destruct (Z_le_gt_dec (ceil x) 0) as [Hnon | Hposz].
  - replace (Z.to_nat (ceil x)) with 0%nat by lia. simpl.
    apply IZR_le in Hnon. split; [nra | left; reflexivity].
  - assert (Hn : INR (Z.to_nat (ceil x)) = IZR (ceil x)).
    { rewrite INR_IZR_INZ, Z2Nat.id by lia. reflexivity. }
    split.
    + rewrite Hn. nra.
    + right. rewrite minus_INR by lia. rewrite Hn. simpl. nra.
Qed.

(** Before the last iteration every move has the full step size. *)
Lemma distance_before_stop (step_size : R) (r : AntInspiredRover) (n : nat) :
  0 < step_size ->
  stops_after step_size (get_home_distance r) n ->
  forall i : nat, (i < n)%nat ->
    get_home_distance (after_iterations i step_size r)
      = get_home_distance r - INR i * step_size
    /\ 1 / 2 < get_home_distance (after_iterations i step_size r).
Proof.
  intros Hstep [_ [Hzero | Hgo]] i Hi; [lia |].
  assert (Hbound : forall j : nat, (j < n)%nat ->
            1 / 2 < get_home_distance r - INR j * step_size).
  { intros j Hj. assert (Hle : INR j <= INR (n - 1)) by (apply le_INR; lia).
    nra. }
  induction i as [| i IH].
  - simpl. split; [ring | specialize (Hbound 0%nat Hi); simpl in Hbound; lra].
  - destruct (IH ltac:(lia)) as [Heq Hfar].
    rewrite after_iterations_succ.
    destruct (homing_iteration_approaches step_size _ Hstep Hfar) as [Hd _].
    specialize (Hbound (S i) Hi). rewrite S_INR in *.
    rewrite Hd, Heq. rewrite Rmin_left by lra. split; lra.
Qed.

Lemma outbound_distance : get_home_distance outbound = 7 / 5.
Proof.
  unfold get_home_distance. apply norm_eq; [lra |].
  simpl. rewrite cos_0, sin_0. field.
Qed.

Lemma silent_outbound_distance : get_home_distance silent_outbound = 7 / 5.
Proof.
  unfold get_home_distance. apply norm_eq; [lra |].
  simpl. rewrite cos_0, sin_0. field.
Qed.

Lemma outbound_stops_after_one : stops_after 1 (get_home_distance outbound) 1.
Proof. rewrite outbound_distance. unfold stops_after. simpl. split; [| right]; lra. Qed.

Lemma silent_outbound_stops_after_one :
  stops_after 1 (get_home_distance silent_outbound) 1.
Proof.
  rewrite silent_outbound_distance. unfold stops_after. simpl.
  split; [| right]; lra.
Qed.

(** C2, as the code has it.  For a positive step size and home distance D the
    homing loop terminates: it returns its iteration count n, which is at
    most ceil(D / step_size) and at least (D - 0.5) / step_size; while it
    runs the home distance is above 0.5 and each iteration shortens it by the
    distance moved, hence strictly; on exit it is at most 0.5.  The count
    need not be ceil(D / step_size). *)
Theorem return_home_terminates :
  forall (step_size : R) (r : AntInspiredRover),
    0 < step_size ->
    let D := get_home_distance r in
    exists n : nat,
      (forall fuel : nat, (n <= fuel)%nat ->
         execute_return_home fuel step_size r
           = Returns (n, after_iterations n step_size r))
      /\ (forall fuel : nat, (fuel < n)%nat ->
         execute_return_home fuel step_size r = Running)
      /\ (n <= Z.to_nat (ceil (D / step_size)))%nat
      /\ D - 1 / 2 <= INR n * step_size
      /\ (forall i : nat, (i < n)%nat ->
         1 / 2 < get_home_distance (after_iterations i step_size r)
         /\ get_home_distance (after_iterations (S i) step_size r)
            = get_home_distance (after_iterations i step_size r)
              - Rmin step_size
                  (get_home_distance (after_iterations i step_size r))
         /\ get_home_distance (after_iterations (S i) step_size r)
            < get_home_distance (after_iterations i step_size r))
      /\ get_home_distance (after_iterations n step_size r) <= 1 / 2.
Proof.
  intros step_size r Hstep D.
  set (n := homing_steps step_size D).
  pose proof (homing_steps_stop step_size D Hstep) as Hstop. fold n in Hstop.
  assert (Hexact : forall fuel : nat,
            execute_return_home fuel step_size r
              = if (n <=? fuel)%nat
                then Returns (n, after_iterations n step_size r)
                else Running).
  { intros fuel. unfold execute_return_home.
    rewrite (return_home_loop_exact n step_size Hstep r fuel 0 Hstop).
    reflexivity. }
  exists n. split.
  { intros fuel Hfuel. rewrite Hexact.
    apply Nat.leb_le in Hfuel. rewrite Hfuel. reflexivity. }
  split.
  { intros fuel Hfuel. rewrite Hexact.
    apply Nat.leb_gt in Hfuel. rewrite Hfuel. reflexivity. }
  split.
  { unfold n, homing_steps.
    assert (Hle : (D - 1 / 2) / step_size <= D / step_size).
    { unfold Rdiv. apply Rmult_le_compat_r; [| lra].
      left. apply Rinv_0_lt_compat. assumption. }
    apply ceil_monotone in Hle. lia. }
  split.
  { destruct Hstop as [Hstop _]. lra. }
  split.
  { intros i Hi.
    destruct (distance_before_stop step_size r n Hstep Hstop i Hi) as [_ Hfar].
    split; [exact Hfar |]. rewrite after_iterations_succ.
    apply homing_iteration_approaches; assumption. }
  specialize (Hexact n). rewrite Nat.leb_refl in Hexact.
  unfold execute_return_home in Hexact.
  destruct (return_home_loop_returns _ _ _ _ _ _ Hexact)
    as (m & _ & Hm & _ & Hnear).
  exact Hnear.
Qed.

Lemma return_home_terminates_witness :
  0 < 1
  /\ exists n : nat,
       execute_return_home n 1 silent_outbound
         = Returns (n, after_iterations n 1 silent_outbound)
       /\ (n <= Z.to_nat (ceil (get_home_distance silent_outbound / 1)))%nat
       /\ get_home_distance silent_outbound - 1 / 2 <= INR n * 1
       /\ get_home_distance (after_iterations n 1 silent_outbound) <= 1 / 2.
Proof.
  assert (Hstep : 0 < 1) by lra.
  split; [exact Hstep |].
  destruct (return_home_terminates 1 silent_outbound Hstep)
    as (n & Hret & _ & Hup & Hlow & _ & Hnear).
  exists n. split; [apply Hret; apply le_n |].
  split; [exact Hup |]. split; [exact Hlow | exact Hnear].
Defined.

(** C2, counterexample.  A rover built with noise level 0 and moved 1.4 m
    out has home distance 1.4; [execute_return_home(1.0)] returns 1 on it,
    because after one step the distance 0.4 is within the threshold, while
    the ceiling of 1.4 / 1.0 is 2. *)
Lemma return_home_stops_one_step_early :
  init (0, 0) 0 = Returns silent_nest
  /\ noise_level (sensor silent_outbound) = 0
  /\ silent_outbound = move_forward (7 / 5) silent_nest
  /\ get_home_distance silent_outbound = 7 / 5
  /\ execute_return_home 5 1 silent_outbound
     = Returns (1%nat, after_iterations 1 1 silent_outbound)
  /\ ceil (get_home_distance silent_outbound / 1) = 2%Z
  /\ Z.of_nat 1 <> ceil (get_home_distance silent_outbound / 1).
Proof.
  assert (Hceil : ceil (get_home_distance silent_outbound / 1) = 2%Z).
  { rewrite silent_outbound_distance. apply ceil_unique. lra. }
  split; [reflexivity |]. split; [reflexivity |]. split; [reflexivity |].
  split; [exact silent_outbound_distance |].
  split.
  - unfold execute_return_home.
    rewrite (return_home_loop_exact 1 1 ltac:(lra) silent_outbound 5 0
               silent_outbound_stops_after_one).
    reflexivity.
  - split; [exact Hceil |]. rewrite Hceil. discriminate.
Qed.

Lemma return_home_loop_never_raises (fuel : nat) (step_size : R) :
  forall (k : nat) (r : AntInspiredRover) (e : exn),
    return_home_loop fuel step_size k r <> Raises e.
Proof.
  induction fuel as [| fuel IH]; intros k r e; cbn [return_home_loop];
    destruct (Rgt_dec (get_home_distance r) (1 / 2)); try discriminate.
  apply IH.
Qed.

Lemma return_home_loop_runs_on (fuel : nat) (step_size : R) :
  step_size <= 0 ->
  forall (k : nat) (r : AntInspiredRover),
    1 / 2 < get_home_distance r ->
    return_home_loop fuel step_size k r = Running.
Proof.
  intros Hstep. induction fuel as [| fuel IH]; intros k r Hfar;
    cbn [return_home_loop];
    destruct (Rgt_dec (get_home_distance r) (1 / 2)) as [_ | Hn];
    try (exfalso; apply Hn; lra).
  - reflexivity.
  - apply IH. rewrite homing_iteration_recedes by assumption. lra.
Qed.

(** C3, as the code has it.  [execute_return_home] does not look at the sign
    of its step size and never raises.  With a step size <= 0, a rover within
    the arrival threshold gets 0 back with its state untouched; a rover
    farther away enters the loop, where each iteration reorients and calls
    [move_forward(step_size)], adding the step size to the odometer and a
    snapshot to each log, and the loop does not exit however long it runs. *)
Theorem return_home_nonpositive_step :
  forall (step_size : R) (r : AntInspiredRover) (fuel : nat),
    step_size <= 0 ->
    (forall e : exn, execute_return_home fuel step_size r <> Raises e)
    /\ (get_home_distance r <= 1 / 2 ->
        execute_return_home fuel step_size r = Returns (0%nat, r))
    /\ (1 / 2 < get_home_distance r ->
        execute_return_home fuel step_size r = Running
        /\ homing_iteration step_size r
           = move_forward step_size (navigate_home r)
        /\ distance_traveled (homing_iteration step_size r)
           = distance_traveled r + step_size
        /\ length (path_history (homing_iteration step_size r))
           = S (length (path_history r))
        /\ length (home_vector_history (homing_iteration step_size r))
           = S (length (home_vector_history r))
        /\ 1 / 2 < get_home_distance (homing_iteration step_size r)).
Proof.
  intros step_size r fuel Hstep.
  split; [intros e; apply return_home_loop_never_raises |].
  split.
  { intros Hnear. unfold execute_return_home.
    destruct fuel; cbn [return_home_loop];
      destruct (Rgt_dec (get_home_distance r) (1 / 2)); try lra; reflexivity. }
  intros Hfar.
  assert (Hmove : homing_iteration step_size r
                  = move_forward step_size (navigate_home r)).
  { unfold homing_iteration.
    change (get_home_distance (navigate_home r)) with (get_home_distance r).
    rewrite Rmin_left by lra. reflexivity. }
  split; [apply return_home_loop_runs_on; assumption |].
  split; [exact Hmove |].
  rewrite homing_iteration_recedes by assumption.
  rewrite Hmove. simpl. rewrite !length_app. simpl.
  repeat split; try lia. lra.
Qed.

Lemma return_home_nonpositive_step_witness :
  0 <= 0
  /\ execute_return_home 7 0 outbound = Running
  /\ execute_return_home 7 0 nest = Returns (0%nat, nest).
Proof.
  assert (Hstep : 0 <= 0) by lra.
  destruct (return_home_nonpositive_step 0 outbound 7 Hstep) as (_ & _ & Hfar).
  destruct (return_home_nonpositive_step 0 nest 7 Hstep) as (_ & Hnear & _).
  split; [exact Hstep |]. split.
  - apply Hfar. rewrite outbound_distance. lra.
  - apply Hnear. unfold get_home_distance. simpl. rewrite norm_zero. lra.
Defined.

(** C3, counterexample.  [execute_return_home(0)] raises nothing: on a new
    rover it returns 0, and on the rover 1.4 m out it is still in its loop
    after three iterations, having called [move_forward] three times and
    grown each log from 2 to 5 entries. *)
Lemma return_home_accepts_zero_step :
  execute_return_home 3 0 nest = Returns (0%nat, nest)
  /\ execute_return_home 3 0 outbound = Running
  /\ execute_return_home 3 0 outbound <> Raises InvalidConfiguration
  /\ length (path_history outbound) = 2%nat
  /\ length (path_history (after_iterations 3 0 outbound)) = 5%nat
  /\ length (home_vector_history (after_iterations 3 0 outbound)) = 5%nat.
Proof.
  assert (Hfar : 1 / 2 < get_home_distance outbound)
    by (rewrite outbound_distance; lra).
  assert (Hrun : execute_return_home 3 0 outbound = Running)
    by (apply return_home_loop_runs_on; [lra | exact Hfar]).
  split.
  { unfold execute_return_home. cbn [return_home_loop].
    destruct (Rgt_dec (get_home_distance nest) (1 / 2)) as [Hgt | _];
      [| reflexivity].
    unfold get_home_distance in Hgt. simpl in Hgt. rewrite norm_zero in Hgt.
    lra. }
  split; [exact Hrun |]. split; [rewrite Hrun; discriminate |].
  repeat split.
Qed.

(* ================================================================== *)
(** ** Turning *)
(* ================================================================== *)

Lemma pymod_range (a m : R) : 0 < m -> 0 <= pymod a m < m.
Proof.
  intros Hm. unfold pymod.
  destruct (base_Int_part (a / m)) as [Hlo Hhi].
  assert (Ha : a = a / m * m) by (field; lra).
  set (q := IZR (Int_part (a / m))) in *. split; nra.
Qed.





Lemma cos_sin_whole_turns (x : R) (k : Z) :
  cos (x + 2 * IZR k * PI) = cos x /\ sin (x + 2 * IZR k * PI) = sin x.
Proof.
  assert (Hpos : forall p : positive, IZR (Z.pos p) = INR (Pos.to_nat p)).
  { intros p. rewrite INR_IZR_INZ, positive_nat_Z. reflexivity. }
  destruct k as [| p | p].
  - replace (x + 2 * 0 * PI) with x by ring. split; reflexivity.
  - rewrite (Hpos p). split; [apply cos_period | apply sin_period].
  - replace (IZR (Z.neg p)) with (- INR (Pos.to_nat p))
      by (rewrite <- Hpos; reflexivity).
    set (n := Pos.to_nat p).
    rewrite <- (cos_period (x + 2 * - INR n * PI) n).
    rewrite <- (sin_period (x + 2 * - INR n * PI) n).
    replace (x + 2 * - INR n * PI + 2 * INR n * PI) with x by ring.
    split; reflexivity.
Qed.


Lemma two_pi_pos : 0 < 2 * PI.
Proof. pose proof PI_RGT_0. lra. Qed.

(** X1. [turn] leaves the heading in [0, 2 pi) for every angle, positive,
    negative or beyond a full turn, and the direction the rover then faces is
    the old heading rotated by the angle; nothing but the heading changes. *)
Theorem turn_normalizes_heading :
  forall (angle_degrees : R) (r : AntInspiredRover),
    0 <= heading (turn angle_degrees r) < 2 * PI
    /\ cos (heading (turn angle_degrees r))
       = cos (heading r + deg2rad angle_degrees)
    /\ sin (heading (turn angle_degrees r))
       = sin (heading r + deg2rad angle_degrees)
    /\ same_track r (turn angle_degrees r)
    /\ sensor (turn angle_degrees r) = sensor r.
Proof.
  intros a r. cbn [turn set_heading heading].
  split; [apply pymod_range, two_pi_pos |].
  set (h := heading r + deg2rad a).
  destruct (cos_sin_whole_turns h (- Int_part (h / (2 * PI)))) as [Hc Hs].
  assert (Hh : pymod h (2 * PI) = h + 2 * IZR (- Int_part (h / (2 * PI))) * PI).
  { unfold pymod. rewrite opp_IZR. ring. }
  rewrite Hh, Hc, Hs. repeat split.
Qed.



(* ================================================================== *)
(** ** Moving *)
(* ================================================================== *)

(** X3. Two moves on one heading add up: position, home vector and odometer
    after [move_forward(d)] and [move_forward(e)] are those after
    [move_forward(d + e)].  So a move followed by the opposite move brings the
    rover, its home vector and its odometer back; only the logs remember it,
    two entries longer. *)
Theorem moves_add_up :
  forall (d e : R) (r : AntInspiredRover),
    position (move_forward e (move_forward d r))
      = position (move_forward (d + e) r)
    /\ home_vector (move_forward e (move_forward d r))
      = home_vector (move_forward (d + e) r)
    /\ distance_traveled (move_forward e (move_forward d r))
      = distance_traveled (move_forward (d + e) r)
    /\ position (move_forward (- d) (move_forward d r)) = position r
    /\ home_vector (move_forward (- d) (move_forward d r)) = home_vector r
    /\ distance_traveled (move_forward (- d) (move_forward d r))
      = distance_traveled r
    /\ length (path_history (move_forward (- d) (move_forward d r)))
      = S (S (length (path_history r))).
Proof.
  intros d e r. destruct r as [[px py] hm [hx hy] h odo s sp ph hh].
  cbn. unfold vadd, vsub. cbn.
  repeat split; try (f_equal; ring); try ring.
  rewrite !length_app. simpl. lia.
Qed.

Lemma dot_le_norms (a b : vec) :
  fst a * fst b + snd a * snd b <= norm a * norm b.
Proof.
  pose proof (norm_nonneg a) as Ha. pose proof (norm_nonneg b) as Hb.
  pose proof (norm_sqr a) as Sa. pose proof (norm_sqr b) as Sb.
  destruct a as [a1 a2], b as [b1 b2]. simpl in *.
  set (A := norm (a1, a2)) in *. set (B := norm (b1, b2)) in *.
  destruct (Rle_dec (a1 * b1 + a2 * b2) 0) as [Hneg | Hpos].
  - pose proof (Rmult_le_pos A B Ha Hb). lra.
  - apply Rnot_le_lt in Hpos.
    assert (Hsq : (a1 * b1 + a2 * b2) * (a1 * b1 + a2 * b2) <= (A * B) * (A * B)).
    { replace (A * B * (A * B)) with ((A * A) * (B * B)) by ring.
      rewrite Sa, Sb. pose proof (Rle_0_sqr (a1 * b2 - a2 * b1)) as Hc.
      unfold Rsqr in Hc. nra. }
    pose proof (Rmult_le_pos A B Ha Hb) as HAB. nra.
Qed.

Lemma norm_triangle (a b : vec) : norm (vadd a b) <= norm a + norm b.
Proof.
  pose proof (norm_nonneg a) as Ha. pose proof (norm_nonneg b) as Hb.
  pose proof (norm_nonneg (vadd a b)) as Hab.
  pose proof (norm_sqr a) as Sa. pose proof (norm_sqr b) as Sb.
  pose proof (norm_sqr (vadd a b)) as Sab.
  pose proof (dot_le_norms a b) as Hdot.
  destruct a as [a1 a2], b as [b1 b2]. unfold vadd in *. simpl in *.
  set (A := norm (a1, a2)) in *. set (B := norm (b1, b2)) in *.
  set (C := norm (a1 + b1, a2 + b2)) in *.
  assert (Hsq : C * C <= (A + B) * (A + B)) by nra.
  nra.
Qed.

Lemma vsub_as_vadd (a b : vec) : vsub a b = vadd a (- fst b, - snd b).
Proof. unfold vsub, vadd. simpl. f_equal; ring. Qed.

Lemma norm_triangle_sub (a b : vec) : norm (vsub a b) <= norm a + norm b.
Proof.
  rewrite vsub_as_vadd. destruct b as [b1 b2]. simpl.
  rewrite <- (norm_neg b1 b2). apply norm_triangle.
Qed.

(** X4. One move changes the home distance by at most the length of the move,
    whatever the heading and the sign of the distance. *)
Theorem move_changes_home_distance_by_at_most_its_length :
  forall (d : R) (r : AntInspiredRover),
    Rabs (get_home_distance (move_forward d r) - get_home_distance r)
      <= Rabs d.
Proof.
  intros d r. unfold get_home_distance. cbn [move_forward home_vector].
  set (m := (d * cos (heading r), d * sin (heading r))).
  assert (Hm : norm m = Rabs d) by apply norm_heading_step.
  pose proof (norm_triangle_sub (home_vector r) m) as Hup.
  pose proof (norm_triangle (vsub (home_vector r) m) m) as Hdown.
  replace (vadd (vsub (home_vector r) m) m) with (home_vector r) in Hdown.
  - rewrite Hm in *. apply Rabs_le. lra.
  - destruct (home_vector r) as [x y]. unfold vadd, vsub. simpl. f_equal; ring.
Qed.

(** The straight-line distance from home never exceeds the odometer as long
    as every move is forward. *)
Lemma straight_line_below_odometer (cs : list command) :
  forall (r : AntInspiredRover) (g : rng) (w : world),
    forward_only cs ->
    run cs (r, g) = Returns w ->
    norm (vsub (position r) (home r)) <= distance_traveled r ->
    norm (vsub (position (fst w)) (home (fst w))) <= distance_traveled (fst w).
Proof.
  induction cs as [| c cs IH]; intros r g w Hfwd Hrun Hle.
  - inversion Hrun; subst. exact Hle.
  - rewrite run_cons in Hrun.
    destruct (exec c (r, g)) as [[r1 g1] | e |] eqn:Hex; cbn [bind] in Hrun;
      try discriminate.
    destruct (exec_frame c r r1 g g1 Hex)
      as [(d & -> & -> & _) | [Hnot (Hp & Hh & _ & Hodo & _)]].
    + destruct Hfwd as [Hd Hfwd]. apply (IH _ _ _ Hfwd Hrun).
      cbn [move_forward position home distance_traveled].
      set (m := (d * cos (heading r), d * sin (heading r))).
      replace (vsub (vadd (position r) m) (home r))
        with (vadd (vsub (position r) (home r)) m)
        by (unfold vadd, vsub; simpl; f_equal; ring).
      pose proof (norm_triangle (vsub (position r) (home r)) m) as Htri.
      assert (Hm : norm m = Rabs d) by apply norm_heading_step.
      rewrite Rabs_right in Hm by lra. lra.
    + assert (Hfwd' : forward_only cs).
      { destruct c; simpl in Hfwd; try exact Hfwd. exfalso. eapply Hnot. reflexivity. }
      apply (IH _ _ _ Hfwd' Hrun). rewrite Hp, Hh, Hodo. exact Hle.
Qed.

(** X5. On a new rover, after any sequence of calls in which every distance
    passed to [move_forward] is non-negative, the straight-line distance from
    home is at most the odometer and the path efficiency lies between 0 and
    1, as the docstring of [get_path_efficiency] says. *)
Theorem forward_runs_have_efficiency_at_most_one :
  forall (start : vec) (noise : R) (g : rng) (cs : list command)
         (r0 : AntInspiredRover) (w : world),
    init start noise = Returns r0 ->
    forward_only cs ->
    run cs (r0, g) = Returns w ->
    norm (vsub (position (fst w)) (home (fst w))) <= distance_traveled (fst w)
    /\ 0 <= get_path_efficiency (fst w) <= 1.
Proof.
  intros start noise g cs r0 w Hinit Hfwd Hrun.
  destruct (init_returns _ _ _ Hinit) as (Hp & Hh & _ & _ & Hodo & _).
  assert (Hle : norm (vsub (position (fst w)) (home (fst w)))
                <= distance_traveled (fst w)).
  { apply (straight_line_below_odometer cs r0 g w Hfwd Hrun).
    rewrite Hp, Hh, Hodo, vsub_self, norm_zero. lra. }
  split; [exact Hle |].
  pose proof (norm_nonneg (vsub (position (fst w)) (home (fst w)))) as Hn.
  unfold get_path_efficiency.
  destruct (Req_dec_T (distance_traveled (fst w)) 0) as [Hz | Hnz]; [lra |].
  assert (Hpos : 0 < distance_traveled (fst w)) by lra.
  split.
  - apply Rmult_le_pos; [exact Hn | left; apply Rinv_0_lt_compat; exact Hpos].
  - apply (Rmult_le_reg_r (distance_traveled (fst w))); [exact Hpos |].
    replace (norm (vsub (position (fst w)) (home (fst w)))
             / distance_traveled (fst w) * distance_traveled (fst w))
      with (norm (vsub (position (fst w)) (home (fst w)))) by (field; lra).
    lra.
Qed.

Lemma forward_runs_have_efficiency_at_most_one_witness :
  exists w : world,
    init (0, 0) (1 / 20) = Returns nest
    /\ forward_only [Turn 45; MoveForward 15; Turn (-30); MoveForward 20]
    /\ run [Turn 45; MoveForward 15; Turn (-30); MoveForward 20] (nest, quiet)
       = Returns w
    /\ 0 <= get_path_efficiency (fst w) <= 1.
Proof.
  assert (Hfwd : forward_only
                   [Turn 45; MoveForward 15; Turn (-30); MoveForward 20])
    by (simpl; repeat split; lra).
  eexists. split; [reflexivity |]. split; [exact Hfwd |].
  split; [reflexivity |].
  exact (proj2 (forward_runs_have_efficiency_at_most_one (0, 0) (1 / 20) quiet
                  [Turn 45; MoveForward 15; Turn (-30); MoveForward 20]
                  nest _ init_nest Hfwd eq_refl)).
Defined.

(** X6. A single backward move from a rover that has not moved gives a
    negative efficiency: the ratio is -1 for every negative distance. *)
Theorem backward_move_has_negative_efficiency :
  forall (r : AntInspiredRover) (d : R),
    position r = home r -> distance_traveled r = 0 -> d < 0 ->
    get_path_efficiency (move_forward d r) = -1.
Proof.
  intros r d Hpos Hodo Hd. unfold get_path_efficiency.
  cbn [move_forward position home distance_traveled].
  rewrite Hpos, Hodo.
  destruct (Req_dec_T (0 + d) 0) as [Hz | _]; [lra |].
  replace (vsub (vadd (home r) (d * cos (heading r), d * sin (heading r)))
             (home r))
    with (d * cos (heading r), d * sin (heading r))
    by (unfold vsub, vadd; simpl; f_equal; ring).
  rewrite norm_heading_step, Rabs_left by lra. field. lra.
Qed.

Lemma backward_move_has_negative_efficiency_witness :
  position nest = home nest /\ distance_traveled nest = 0 /\ -3 < 0
  /\ get_path_efficiency (move_forward (-3) nest) = -1.
Proof.
  assert (Hd : -3 < 0) by lra.
  split; [reflexivity |]. split; [reflexivity |]. split; [exact Hd |].
  exact (backward_move_has_negative_efficiency nest (-3) eq_refl eq_refl Hd).
Defined.

(* ================================================================== *)
(** ** Facing home *)
(* ================================================================== *)

Lemma atan_sign (t : R) :
  (0 < t -> 0 < atan t) /\ (t <= 0 -> atan t <= 0).
Proof.
  split; intros Ht.
  - pose proof (atan_increasing 0 t Ht) as H. rewrite atan_0 in H. lra.
  - destruct Ht as [Ht | ->]; [| rewrite atan_0; lra].
    pose proof (atan_increasing t 0 Ht) as H. rewrite atan_0 in H. lra.
Qed.

Lemma ratio_sign (x y : R) :
  x < 0 -> (0 <= y -> y / x <= 0) /\ (y < 0 -> 0 < y / x).
Proof.
  intros Hx. assert (Hinv : / x < 0) by (apply Rinv_lt_0_compat; exact Hx).
  unfold Rdiv. split; intros Hy; nra.
Qed.

Lemma arctan2_range (y x : R) : - PI < arctan2 y x <= PI.
Proof.
  pose proof PI_RGT_0 as Hpi. unfold arctan2.
  destruct (total_order_T x 0) as [[Hx | Hx] | Hx].
  - pose proof (atan_bound (y / x)) as Hb.
    destruct (ratio_sign x y Hx) as [Hnonneg Hneg].
    destruct (atan_sign (y / x)) as [Hup Hdown].
    destruct (Rle_dec 0 y) as [Hy | Hy].
    + specialize (Hdown (Hnonneg Hy)). lra.
    + apply Rnot_le_lt in Hy. specialize (Hup (Hneg Hy)). lra.
  - destruct (total_order_T y 0) as [[Hy | Hy] | Hy]; lra.
  - pose proof (atan_bound (y / x)) as Hb. lra.
Qed.

Lemma set_heading_same (r : AntInspiredRover) : set_heading (heading r) r = r.
Proof. destruct r. reflexivity. Qed.

(** X7. Farther than the 0.01 epsilon from home, [navigate_home] makes the
    rover face home: the unit vector of the new heading is the home vector
    divided by its length, and the heading is arctan2's value in (-pi, pi],
    so it can be negative.  Within the epsilon [navigate_home] changes
    nothing at all. *)
Theorem navigate_home_faces_home :
  forall r : AntInspiredRover,
    (1 / 100 <= get_home_distance r ->
       cos (heading (navigate_home r))
         = fst (home_vector r) / get_home_distance r
       /\ sin (heading (navigate_home r))
         = snd (home_vector r) / get_home_distance r
       /\ - PI < heading (navigate_home r) <= PI)
    /\ (get_home_distance r < 1 / 100 -> navigate_home r = r).
Proof.
  intros r. unfold navigate_home, get_home_direction, get_home_distance.
  cbn [set_heading heading]. split; intros Hd.
  - destruct (Rlt_dec (norm (home_vector r)) (1 / 100)) as [Hnear | _]; [lra |].
    destruct (home_vector r) as [x y]. cbn [fst snd].
    destruct (arctan2_unit x y ltac:(lra)) as [Hc Hs].
    split; [exact Hc |]. split; [exact Hs | apply arctan2_range].
  - destruct (Rlt_dec (norm (home_vector r)) (1 / 100)) as [_ | Hfar]; [| lra].
    apply set_heading_same.
Qed.

Lemma navigate_home_faces_home_witness :
  1 / 100 <= get_home_distance outbound
  /\ cos (heading (navigate_home outbound))
     = fst (home_vector outbound) / get_home_distance outbound
  /\ get_home_distance nest < 1 / 100
  /\ navigate_home nest = nest.
Proof.
  assert (Hfar : 1 / 100 <= get_home_distance outbound)
    by (rewrite outbound_distance; lra).
  assert (Hnear : get_home_distance nest < 1 / 100).
  { unfold get_home_distance. simpl. rewrite norm_zero. lra. }
  split; [exact Hfar |].
  split; [exact (proj1 (proj1 (navigate_home_faces_home outbound) Hfar)) |].
  split; [exact Hnear |].
  exact (proj2 (navigate_home_faces_home nest) Hnear).
Defined.

(* ================================================================== *)
(** ** More on the homing loop *)
(* ================================================================== *)

Lemma homing_iteration_home_vector (step_size : R) (r : AntInspiredRover) :
  1 / 100 <= get_home_distance r ->
  let k := 1 - Rmin step_size (get_home_distance r) / get_home_distance r in
  0 <= k
  /\ home_vector (homing_iteration step_size r)
     = (k * fst (home_vector r), k * snd (home_vector r))
  /\ heading (homing_iteration step_size r) = get_home_direction r.
Proof.
  intros Hfar k. subst k.
  pose proof (Rmin_r step_size (get_home_distance r)) as Hmin.
  set (D := get_home_distance r) in *.
  assert (HD : 0 < D) by lra.
  split.
  { assert (Hq : Rmin step_size D / D <= 1).
    { apply (Rmult_le_reg_r D); [exact HD |].
      replace (Rmin step_size D / D * D) with (Rmin step_size D) by (field; lra).
      lra. }
    lra. }
  split; [| reflexivity].
  unfold homing_iteration.
  change (get_home_distance (navigate_home r)) with D.
  cbn [move_forward home_vector navigate_home set_heading heading].
  unfold get_home_direction. fold (get_home_distance r). fold D.
  destruct (Rlt_dec D (1 / 100)) as [Hnear | _]; [lra |].
  unfold D, get_home_distance in *.
  destruct (home_vector r) as [x y]. cbn [fst snd].
  destruct (arctan2_unit x y HD) as [Hc Hs]. rewrite Hc, Hs.
  unfold vsub. cbn [fst snd]. f_equal; field; lra.
Qed.

(** X8. Homing keeps its bearing: from at least 0.01 away, an iteration of
    the homing loop leaves the rover heading in the home direction computed
    before the move, and the home direction computed after the move points
    the same way, that is, has the same cosine and sine, whether the move
    stopped short of home or landed on it. *)
Theorem homing_keeps_its_bearing :
  forall (step_size : R) (r : AntInspiredRover),
    1 / 100 <= get_home_distance r ->
    heading (homing_iteration step_size r) = get_home_direction r
    /\ cos (get_home_direction (homing_iteration step_size r))
       = cos (get_home_direction r)
    /\ sin (get_home_direction (homing_iteration step_size r))
       = sin (get_home_direction r).
Proof.
  intros step_size r Hfar.
  destruct (homing_iteration_home_vector step_size r Hfar) as (Hk & Hhv & Hh).
  split; [exact Hh |].
  set (k := 1 - Rmin step_size (get_home_distance r) / get_home_distance r) in *.
  unfold get_home_direction at 1 3. rewrite Hh, Hhv.
  destruct (Rlt_dec (norm (k * fst (home_vector r), k * snd (home_vector r)))
              (1 / 100)) as [_ | Hstill]; [split; reflexivity |].
  cbn [fst snd].
  assert (Hkpos : 0 < k).
  { destruct Hk as [Hk | Hk]; [exact Hk | exfalso].
    rewrite <- Hk in Hstill. apply Hstill.
    replace (0 * fst (home_vector r), 0 * snd (home_vector r)) with (0, 0)
      by (f_equal; ring).
    rewrite norm_zero. lra. }
  unfold get_home_direction. unfold get_home_distance in Hfar.
  destruct (Rlt_dec (norm (home_vector r)) (1 / 100)) as [Hnear | _]; [lra |].
  destruct (home_vector r) as [x y]. cbn [fst snd] in *.
  assert (HD : 0 < norm (x, y)) by lra.
  assert (HkD : 0 < norm (k * x, k * y)).
  { rewrite norm_scale, Rabs_right by lra. apply Rmult_lt_0_compat; assumption. }
  destruct (arctan2_unit x y HD) as [Hc Hs].
  destruct (arctan2_unit (k * x) (k * y) HkD) as [Hkc Hks].
  rewrite Hkc, Hks, Hc, Hs, norm_scale, Rabs_right by lra.
  split; field; lra.
Qed.

Lemma homing_keeps_its_bearing_witness :
  1 / 100 <= get_home_distance outbound
  /\ heading (homing_iteration (1 / 4) outbound) = get_home_direction outbound
  /\ cos (get_home_direction (homing_iteration (1 / 4) outbound))
     = cos (get_home_direction outbound).
Proof.
  assert (Hfar : 1 / 100 <= get_home_distance outbound)
    by (rewrite outbound_distance; lra).
  destruct (homing_keeps_its_bearing (1 / 4) outbound Hfar) as (Hh & Hc & _).
  split; [exact Hfar |]. split; [exact Hh | exact Hc].
Defined.

Lemma homing_iteration_conserves (step_size : R) (r : AntInspiredRover) :
  1 / 100 <= get_home_distance r ->
  distance_traveled (homing_iteration step_size r)
    + get_home_distance (homing_iteration step_size r)
  = distance_traveled r + get_home_distance r.
Proof.
  intros Hfar. rewrite homing_iteration_distance by exact Hfar.
  pose proof (Rmin_r step_size (get_home_distance r)) as Hmin.
  rewrite Rabs_right by lra.
  unfold homing_iteration.
  change (get_home_distance (navigate_home r)) with (get_home_distance r).
  cbn [move_forward navigate_home set_heading distance_traveled]. ring.
Qed.

Lemma return_home_loop_conserves (fuel : nat) (step_size : R) :
  forall (k n : nat) (r r' : AntInspiredRover),
    return_home_loop fuel step_size k r = Returns (n, r') ->
    distance_traveled r' + get_home_distance r'
      = distance_traveled r + get_home_distance r
    /\ get_home_distance r' <= 1 / 2
    /\ distance_traveled r' - distance_traveled r <= INR (n - k) * Rabs step_size.
Proof.
  induction fuel as [| fuel IH]; intros k n r r' Hloop;
    cbn [return_home_loop] in Hloop;
    destruct (Rgt_dec (get_home_distance r) (1 / 2)) as [Hfar | Hnear];
    try discriminate;
    try (inversion Hloop; subst; rewrite Nat.sub_diag; simpl;
         repeat split; lra).
  destruct (IH _ _ _ _ Hloop) as (Hsum & Hstop & Hlen).
  destruct (return_home_loop_returns _ _ _ _ _ _ Hloop) as (m & _ & Hn & _).
  rewrite homing_iteration_conserves in Hsum by lra.
  split; [exact Hsum |]. split; [exact Hstop |].
  assert (Hmove : distance_traveled (homing_iteration step_size r)
                  - distance_traveled r <= Rabs step_size).
  { unfold homing_iteration.
    change (get_home_distance (navigate_home r)) with (get_home_distance r).
    cbn [move_forward navigate_home set_heading distance_traveled].
    pose proof (Rmin_l step_size (get_home_distance r)).
    pose proof (Rle_abs step_size). lra. }
  subst n. replace (S k + m - k)%nat with (S m) by lia.
  replace (S k + m - S k)%nat with m in Hlen by lia.
  rewrite S_INR. lra.
Qed.

(** X9. Homing travels exactly the distance it closes: whenever
    [execute_return_home] returns, the odometer has grown by the home
    distance at the start minus the home distance at the end, the end
    distance is at most 0.5, and the growth is at most the returned step
    count times the step size. *)
Theorem homing_travels_what_it_closes :
  forall (fuel : nat) (step_size : R) (r r' : AntInspiredRover) (n : nat),
    execute_return_home fuel step_size r = Returns (n, r') ->
    distance_traveled r' - distance_traveled r
      = get_home_distance r - get_home_distance r'
    /\ get_home_distance r' <= 1 / 2
    /\ distance_traveled r' - distance_traveled r <= INR n * Rabs step_size.
Proof.
  intros fuel step_size r r' n Hret. unfold execute_return_home in Hret.
  destruct (return_home_loop_conserves _ _ _ _ _ _ Hret) as (Hsum & Hstop & Hlen).
  rewrite Nat.sub_0_r in Hlen. repeat split; [lra | exact Hstop | exact Hlen].
Qed.

Lemma homing_travels_what_it_closes_witness :
  execute_return_home 1 1 outbound
    = Returns (1%nat, after_iterations 1 1 outbound)
  /\ distance_traveled (after_iterations 1 1 outbound)
     - distance_traveled outbound
     = get_home_distance outbound
       - get_home_distance (after_iterations 1 1 outbound).
Proof.
  assert (Hret : execute_return_home 1 1 outbound
                 = Returns (1%nat, after_iterations 1 1 outbound)).
  { unfold execute_return_home.
    rewrite (return_home_loop_exact 1 1 ltac:(lra) outbound 1 0
               outbound_stops_after_one).
    reflexivity. }
  split; [exact Hret |].
  exact (proj1 (homing_travels_what_it_closes 1 1 outbound _ 1 Hret)).
Defined.

(** X10. A step size that covers the whole home distance does not make the
    rover overshoot: from a distance D above 0.5 and at most the step size,
    [execute_return_home] returns 1, the one move it makes has length D and
    not the step size, so the odometer grows by D, and the rover ends less
    than the 0.01 arrival epsilon from home. *)
Theorem one_long_step_does_not_overshoot :
  forall (fuel : nat) (step_size : R) (r : AntInspiredRover),
    1 / 2 < get_home_distance r ->
    get_home_distance r <= step_size ->
    exists r' : AntInspiredRover,
      execute_return_home (S fuel) step_size r = Returns (1%nat, r')
      /\ r' = move_forward (get_home_distance r) (navigate_home r)
      /\ distance_traveled r' = distance_traveled r + get_home_distance r
      /\ get_home_distance r' < 1 / 100.
Proof.
  intros fuel step_size r Hfar Hstep.
  assert (Hpos : 0 < step_size) by lra.
  assert (Hstop : stops_after step_size (get_home_distance r) 1).
  { unfold stops_after. simpl. split; [| right]; lra. }
  assert (Hmove : homing_iteration step_size r
                  = move_forward (get_home_distance r) (navigate_home r)).
  { unfold homing_iteration.
    change (get_home_distance (navigate_home r)) with (get_home_distance r).
    rewrite Rmin_right by exact Hstep. reflexivity. }
  exists (homing_iteration step_size r).
  split.
  { unfold execute_return_home.
    rewrite (return_home_loop_exact 1 step_size Hpos r (S fuel) 0 Hstop).
    reflexivity. }
  split; [exact Hmove |].
  split; [rewrite Hmove; reflexivity |].
  rewrite homing_iteration_distance by lra.
  rewrite Rmin_right by exact Hstep.
  replace (get_home_distance r - get_home_distance r) with 0 by ring.
  rewrite Rabs_R0. lra.
Qed.

Lemma one_long_step_does_not_overshoot_witness :
  1 / 2 < get_home_distance outbound
  /\ get_home_distance outbound <= 5
  /\ exists r' : AntInspiredRover,
       execute_return_home 1 5 outbound = Returns (1%nat, r')
       /\ distance_traveled r'
          = distance_traveled outbound + get_home_distance outbound
       /\ get_home_distance r' < 1 / 100.
Proof.
  assert (Hfar : 1 / 2 < get_home_distance outbound)
    by (rewrite outbound_distance; lra).
  assert (Hstep : get_home_distance outbound <= 5)
    by (rewrite outbound_distance; lra).
  split; [exact Hfar |]. split; [exact Hstep |].
  destruct (one_long_step_does_not_overshoot 0 5 outbound Hfar Hstep)
    as (r' & Hret & _ & Hodo & Hnear).
  exists r'. split; [exact Hret |]. split; [exact Hodo | exact Hnear].
Defined.

(* ================================================================== *)
(** ** More on the sensor *)
(* ================================================================== *)

(** X11. With noise level 0 the sensor is exact whatever the generator
    produces: after [set_sun_position(a)] or [calibrate(a)] a reading returns
    the azimuth [a] in radians, the vector reading its unit vector, and
    [align_to_sun(t)] leaves the rover heading [radians(a) + radians(t)]. *)
Theorem noiseless_sensor_is_exact :
  forall (a t : R) (r : AntInspiredRover) (g : rng),
    noise_level (sensor r) = 0 ->
    let s := Sensor.set_sun_position a (sensor r) in
    Sensor.get_sun_direction s g = Returns (deg2rad a, advance g)
    /\ Sensor.get_sun_vector s g
       = Returns ((cos (deg2rad a), sin (deg2rad a)), advance g)
    /\ Sensor.get_sun_direction (Sensor.calibrate a (sensor r)) g
       = Returns (deg2rad a, advance g)
    /\ exists w : world,
         run [SetSunPosition a; AlignToSun t] (r, g) = Returns w
         /\ heading (fst w) = deg2rad a + deg2rad t
         /\ snd w = advance g.
Proof.
  intros a t r g Hzero s. subst s.
  remember (Sensor.set_sun_position a (sensor r)) as s eqn:Es.
  assert (Hs : 0 <= noise_level s) by (rewrite Es; simpl; lra).
  assert (Hd : Sensor.get_sun_direction s g = Returns (deg2rad a, advance g)).
  { rewrite get_sun_direction_returns by exact Hs.
    rewrite Es. simpl. rewrite Hzero. do 2 f_equal. ring. }
  split; [exact Hd |]. split.
  { unfold Sensor.get_sun_vector. rewrite Hd. reflexivity. }
  split; [unfold Sensor.calibrate; rewrite <- Es; exact Hd |].
  assert (Hal : align_to_sun t (set_sensor s r) g
                = Returns (set_heading (deg2rad a + deg2rad t) (set_sensor s r),
                           advance g)).
  { unfold align_to_sun. cbn [set_sensor sensor]. rewrite Hd. reflexivity. }
  exists (set_heading (deg2rad a + deg2rad t) (set_sensor s r), advance g).
  split.
  - rewrite run_cons. cbn [exec bind]. rewrite run_cons. cbn [exec].
    rewrite <- Es, Hal. reflexivity.
  - split; reflexivity.
Qed.

Lemma noiseless_sensor_is_exact_witness :
  noise_level (sensor (set_sensor {| noise_level := 0; sun_azimuth := 0 |} nest))
    = 0
  /\ Sensor.get_sun_direction
       (Sensor.set_sun_position 90 {| noise_level := 0; sun_azimuth := 0 |})
       swinging
     = Returns (deg2rad 90, advance swinging).
Proof.
  split; [reflexivity |].
  exact (proj1 (noiseless_sensor_is_exact 90 0
                  (set_sensor {| noise_level := 0; sun_azimuth := 0 |} nest)
                  swinging eq_refl)).
Defined.

(** X12. Whatever [get_sun_vector] returns has length exactly 1, and the
    call has taken exactly one deviate from the generator. *)
Theorem sun_vector_is_a_unit_vector :
  forall (s : PolarizedLightSensor) (g g' : rng) (v : vec),
    Sensor.get_sun_vector s g = Returns (v, g') ->
    norm v = 1 /\ g' = advance g.
Proof.
  intros s g g' v Hv. unfold Sensor.get_sun_vector in Hv.
  destruct (get_sun_direction_cases s g) as [[_ Hd] | [_ Hd]];
    rewrite Hd in Hv; cbn [bind fst snd] in Hv; [discriminate |].
  inversion Hv; subst. split; [apply norm_unit | reflexivity].
Qed.

Lemma sun_vector_is_a_unit_vector_witness :
  exists (v : vec) (g' : rng),
    Sensor.get_sun_vector unit_noise_sensor swinging = Returns (v, g')
    /\ norm v = 1.
Proof.
  assert (Hv : Sensor.get_sun_vector unit_noise_sensor swinging
               = Returns ((cos (0 + 1 * 0), sin (0 + 1 * 0)), advance swinging)).
  { unfold Sensor.get_sun_vector.
    rewrite get_sun_direction_returns by (simpl; lra). reflexivity. }
  eexists. eexists. split; [exact Hv |].
  exact (proj1 (sun_vector_is_a_unit_vector _ _ _ _ Hv)).
Defined.

(** X13. A reading fails exactly when the noise level is negative, with the
    [ValueError] of [np.random.normal]: this holds of [get_sun_direction], of
    [get_sun_vector] and of [align_to_sun].  No other call raises, so a rover
    built with a negative noise level turns, moves and heads home as usual. *)
Theorem readings_raise_exactly_on_negative_noise :
  forall (t : R) (r : AntInspiredRover) (g : rng),
    (noise_level (sensor r) < 0
       <-> Sensor.get_sun_direction (sensor r) g = Raises ValueError)
    /\ (noise_level (sensor r) < 0
       <-> Sensor.get_sun_vector (sensor r) g = Raises ValueError)
    /\ (noise_level (sensor r) < 0
       <-> align_to_sun t r g = Raises ValueError)
    /\ (forall (c : command) (e : exn),
         exec c (r, g) = Raises e ->
         e = ValueError /\ noise_level (sensor r) < 0
         /\ ((exists t', c = AlignToSun t')
             \/ c = GetSunDirection \/ c = GetSunVector)).
Proof.
  intros t r g.
  assert (Hdir : noise_level (sensor r) < 0
                 <-> Sensor.get_sun_direction (sensor r) g = Raises ValueError).
  { split; [apply get_sun_direction_raises |].
    intros Hr. destruct (get_sun_direction_cases (sensor r) g)
      as [[Hneg _] | [_ Hd]]; [exact Hneg |].
    rewrite Hd in Hr. discriminate. }
  assert (Hvec : noise_level (sensor r) < 0
                 <-> Sensor.get_sun_vector (sensor r) g = Raises ValueError).
  { unfold Sensor.get_sun_vector.
    destruct (get_sun_direction_cases (sensor r) g) as [[Hneg Hd] | [Hpos Hd]];
      rewrite Hd; cbn [bind]; split; intros H;
      try reflexivity; try exact Hneg; try lra; discriminate. }
  assert (Hal : forall t', noise_level (sensor r) < 0
                 <-> align_to_sun t' r g = Raises ValueError).
  { intros t'. unfold align_to_sun.
    destruct (get_sun_direction_cases (sensor r) g) as [[Hneg Hd] | [Hpos Hd]];
      rewrite Hd; cbn [bind]; split; intros H;
      try reflexivity; try exact Hneg; try lra; discriminate. }
  split; [exact Hdir |]. split; [exact Hvec |]. split; [apply Hal |].
  intros c e Hex.
  destruct c; cbn [exec] in Hex; try discriminate.
  - assert (He : e = ValueError).
    { unfold align_to_sun in Hex.
      destruct (get_sun_direction_cases (sensor r) g) as [[_ Hd] | [_ Hd]];
        rewrite Hd in Hex; cbn [bind] in Hex; [congruence | discriminate]. }
    subst e. apply Hal in Hex. repeat split; eauto.
  - destruct (get_sun_direction_cases (sensor r) g) as [[Hneg Hd] | [_ Hd]];
      rewrite Hd in Hex; cbn [bind] in Hex; [| discriminate].
    inversion Hex; subst. repeat split; auto.
  - unfold Sensor.get_sun_vector in Hex.
    destruct (get_sun_direction_cases (sensor r) g) as [[Hneg Hd] | [_ Hd]];
      rewrite Hd in Hex; cbn [bind] in Hex; [| discriminate].
    inversion Hex; subst. repeat split; auto.
Qed.

Lemma readings_raise_exactly_on_negative_noise_witness :
  noise_level
    (sensor (set_sensor {| noise_level := -1; sun_azimuth := 0 |} nest)) < 0
  /\ align_to_sun 0 (set_sensor {| noise_level := -1; sun_azimuth := 0 |} nest)
       quiet
     = Raises ValueError.
Proof.
  assert (Hneg : noise_level
                   (sensor (set_sensor {| noise_level := -1; sun_azimuth := 0 |}
                              nest)) < 0) by (simpl; lra).
  split; [exact Hneg |].
  destruct (readings_raise_exactly_on_negative_noise 0
              (set_sensor {| noise_level := -1; sun_azimuth := 0 |} nest) quiet)
    as (_ & _ & Hal & _).
  exact (proj1 Hal Hneg).
Defined.

(* ================================================================== *)
(** ** Foraging *)
(* ================================================================== *)

Lemma foraging_run_app (m1 m2 : list (R * R)) :
  forall r : AntInspiredRover,
    execute_foraging_run (m1 ++ m2) r
      = execute_foraging_run m2 (execute_foraging_run m1 r).
Proof.
  induction m1 as [| [a d] rest IH]; intros r; [reflexivity |].
  cbn [app execute_foraging_run]. apply IH.
Qed.

Lemma foraging_run_effects (moves : list (R * R)) :
  forall r : AntInspiredRover,
    distance_traveled (execute_foraging_run moves r)
      = distance_traveled r + script_length moves
    /\ length (path_history (execute_foraging_run moves r))
       = (length (path_history r) + length moves)%nat
    /\ length (home_vector_history (execute_foraging_run moves r))
       = (length (home_vector_history r) + length moves)%nat
    /\ home (execute_foraging_run moves r) = home r
    /\ sensor (execute_foraging_run moves r) = sensor r
    /\ (integrated r -> integrated (execute_foraging_run moves r))
    /\ (moves <> [] -> 0 <= heading (execute_foraging_run moves r) < 2 * PI).
Proof.
  induction moves as [| [a d] rest IH]; intros r.
  - cbn [execute_foraging_run script_length fold_right length].
    split; [ring |]. split; [lia |]. split; [lia |].
    split; [reflexivity |]. split; [reflexivity |]. split; [tauto |].
    intros H. contradiction.
  - cbn [execute_foraging_run].
    destruct (IH (move_forward d (turn a r)))
      as (Hodo & Hph & Hvh & Hhome & Hsens & Hinv & Hhead).
    rewrite Hodo, Hph, Hvh, Hhome, Hsens.
    change (script_length ((a, d) :: rest)) with (d + script_length rest).
    cbn [move_forward turn set_heading distance_traveled path_history
           home_vector_history home sensor length].
    rewrite !length_app. cbn [length].
    split; [ring |]. split; [lia |]. split; [lia |].
    split; [reflexivity |]. split; [reflexivity |]. split.
    + intros Hi. apply Hinv. apply integrated_move_forward. exact Hi.
    + intros _. destruct rest as [| m rest'].
      * cbn [execute_foraging_run move_forward turn set_heading heading].
        apply pymod_range, two_pi_pos.
      * apply Hhead. discriminate.
Qed.

(** X14. A foraging run is the runs of its parts one after the other, and the
    empty script changes nothing.  A run adds the sum of its distances to the
    odometer and one entry per move to each log, keeps home, the sensor and
    the path-integration invariant, and after a non-empty script the heading
    lies in [0, 2 pi). *)
Theorem foraging_run_summary :
  forall (m1 m2 : list (R * R)) (r : AntInspiredRover),
    execute_foraging_run [] r = r
    /\ execute_foraging_run (m1 ++ m2) r
       = execute_foraging_run m2 (execute_foraging_run m1 r)
    /\ distance_traveled (execute_foraging_run m1 r)
       = distance_traveled r + script_length m1
    /\ length (path_history (execute_foraging_run m1 r))
       = (length (path_history r) + length m1)%nat
    /\ length (home_vector_history (execute_foraging_run m1 r))
       = (length (home_vector_history r) + length m1)%nat
    /\ home (execute_foraging_run m1 r) = home r
    /\ sensor (execute_foraging_run m1 r) = sensor r
    /\ (home_vector r = vsub (home r) (position r) ->
        home_vector (execute_foraging_run m1 r)
          = vsub (home (execute_foraging_run m1 r))
              (position (execute_foraging_run m1 r)))
    /\ (m1 <> [] -> 0 <= heading (execute_foraging_run m1 r) < 2 * PI).
Proof.
  intros m1 m2 r. split; [reflexivity |].
  split; [apply foraging_run_app |]. apply foraging_run_effects.
Qed.

Lemma foraging_run_summary_witness :
  home_vector nest = vsub (home nest) (position nest)
  /\ [(30, 20); (-45, 15)] <> []
  /\ home_vector (execute_foraging_run [(30, 20); (-45, 15)] nest)
     = vsub (home (execute_foraging_run [(30, 20); (-45, 15)] nest))
         (position (execute_foraging_run [(30, 20); (-45, 15)] nest))
  /\ 0 <= heading (execute_foraging_run [(30, 20); (-45, 15)] nest) < 2 * PI.
Proof.
  assert (Hinv : home_vector nest = vsub (home nest) (position nest)).
  { simpl. unfold vsub. simpl. f_equal; ring. }
  assert (Hne : [(30, 20); (-45, 15)] <> ([] : list (R * R))) by discriminate.
  destruct (foraging_run_summary [(30, 20); (-45, 15)] [] nest)
    as (_ & _ & _ & _ & _ & _ & _ & Hkeep & Hhead).
  split; [exact Hinv |]. split; [exact Hne |].
  split; [exact (Hkeep Hinv) | exact (Hhead Hne)].
Defined.

(* ================================================================== *)
(** ** The sensor plays no part in foraging and homing *)
(* ================================================================== *)

Lemma set_sensor_twice (s s' : PolarizedLightSensor) (r : AntInspiredRover) :
  set_sensor s (set_sensor s' r) = set_sensor s r.
Proof. reflexivity. Qed.

Lemma foraging_run_set_sensor (s : PolarizedLightSensor) (moves : list (R * R)) :
  forall r : AntInspiredRover,
    execute_foraging_run moves (set_sensor s r)
      = set_sensor s (execute_foraging_run moves r).
Proof.
  induction moves as [| [a d] rest IH]; intros r; [reflexivity |].
  cbn [execute_foraging_run]. rewrite <- IH. reflexivity.
Qed.

Lemma homing_iteration_set_sensor (s : PolarizedLightSensor) (step_size : R)
  (r : AntInspiredRover) :
  homing_iteration step_size (set_sensor s r)
    = set_sensor s (homing_iteration step_size r).
Proof. reflexivity. Qed.

Lemma return_home_loop_set_sensor (s : PolarizedLightSensor) (fuel : nat)
  (step_size : R) :
  forall (k : nat) (r : AntInspiredRover),
    return_home_loop fuel step_size k (set_sensor s r)
      = outcome_map (fun p => (fst p, set_sensor s (snd p)))
          (return_home_loop fuel step_size k r).
Proof.
  induction fuel as [| fuel IH]; intros k r; cbn [return_home_loop];
    change (get_home_distance (set_sensor s r)) with (get_home_distance r);
    destruct (Rgt_dec (get_home_distance r) (1 / 2)); try reflexivity.
  rewrite homing_iteration_set_sensor. apply IH.
Qed.

(** X15. Foraging and homing never look at the sensor: running either on a
    rover whose sensor has been replaced gives the rover that results from
    running it first and replacing the sensor afterwards, with the same step
    count, and a homing loop that is still running stays so. *)
Theorem sensor_is_inert_in_foraging_and_homing :
  forall (s : PolarizedLightSensor) (moves : list (R * R)) (fuel : nat)
         (step_size : R) (r : AntInspiredRover),
    execute_foraging_run moves (set_sensor s r)
      = set_sensor s (execute_foraging_run moves r)
    /\ execute_return_home fuel step_size (set_sensor s r)
       = outcome_map (fun p => (fst p, set_sensor s (snd p)))
           (execute_return_home fuel step_size r).
Proof.
  intros s moves fuel step_size r.
  split; [apply foraging_run_set_sensor | apply return_home_loop_set_sensor].
Qed.

(* ================================================================== *)
(** ** Whole simulations *)
(* ================================================================== *)

Lemma norm_vsub_sym (a b : vec) : norm (vsub a b) = norm (vsub b a).
Proof.
  destruct a as [a1 a2], b as [b1 b2]. unfold vsub. cbn [fst snd].
  replace (a1 - b1, a2 - b2) with (- (b1 - a1), - (b2 - a2))
    by (f_equal; ring).
  apply norm_neg.
Qed.

Lemma integrated_true_distance (r : AntInspiredRover) :
  integrated r -> get_home_distance r = norm (vsub (position r) (home r)).
Proof.
  unfold integrated, get_home_distance. intros ->. apply norm_vsub_sym.
Qed.

Lemma integrated_after_iterations (n : nat) (step_size : R) :
  forall r : AntInspiredRover,
    integrated r ->
    integrated (after_iterations n step_size r)
    /\ home (after_iterations n step_size r) = home r
    /\ length (path_history (after_iterations n step_size r))
       = (length (path_history r) + n)%nat.
Proof.
  induction n as [| n IH]; intros r Hinv.
  - simpl. repeat split; [exact Hinv | lia].
  - cbn [after_iterations].
    assert (Hstep : integrated (homing_iteration step_size r)).
    { unfold homing_iteration. apply integrated_move_forward. exact Hinv. }
    destruct (IH _ Hstep) as (Hi & Hh & Hl).
    split; [exact Hi |]. split; [rewrite Hh; reflexivity |].
    rewrite Hl. unfold homing_iteration.
    cbn [move_forward navigate_home set_heading path_history].
    rewrite length_app. simpl. lia.
Qed.

(** The rover [run_single_simulation] hands to the homing loop. *)
Lemma simulation_unfold (fuel : nat) (self : Simulation.NavigationSimulation)
  (moves : list (R * R)) (noise : R) :
  exists foraged : AntInspiredRover,
    Simulation.run_single_simulation fuel self moves noise
      = outcome_map snd (execute_return_home fuel 1 foraged)
    /\ integrated foraged
    /\ home foraged = Simulation.home_position self
    /\ length (path_history foraged) = S (length moves)
    /\ foraged
       = set_sensor {| noise_level := noise;
                       sun_azimuth := deg2rad (Simulation.sun_azimuth self) |}
           (execute_foraging_run moves
              {| position := Simulation.home_position self;
                 home := Simulation.home_position self;
                 home_vector := (0, 0);
                 heading := 0;
                 distance_traveled := 0;
                 sensor := {| noise_level := 0; sun_azimuth := 0 |};
                 speed := 1;
                 path_history := [Simulation.home_position self];
                 home_vector_history := [(0, 0)] |}).
Proof.
  eexists. split; [reflexivity |].
  set (fresh := set_sensor _ _).
  destruct (foraging_run_effects moves fresh) as (_ & Hl & _ & Hh & _ & Hi & _).
  split.
  { apply Hi. unfold integrated, fresh. simpl. symmetry. apply vsub_self. }
  split; [rewrite Hh; reflexivity |]. split; [rewrite Hl; reflexivity |].
  unfold fresh. rewrite <- foraging_run_set_sensor. reflexivity.
Qed.

Lemma simulation_comes_home_with_enough_fuel :
  forall (self : Simulation.NavigationSimulation) (moves : list (R * R))
         (noise : R),
  exists n0 : nat,
    (forall fuel : nat, (n0 <= fuel)%nat ->
       exists rover : AntInspiredRover,
         Simulation.run_single_simulation fuel self moves noise = Returns rover
         /\ home rover = Simulation.home_position self
         /\ norm (vsub (position rover) (home rover)) = get_home_distance rover
         /\ norm (vsub (position rover) (home rover)) <= 1 / 2
         /\ length (path_history rover) = (1 + length moves + n0)%nat
         /\ length (home_distances rover) = (1 + length moves + n0)%nat)
    /\ (forall fuel : nat, (fuel < n0)%nat ->
          Simulation.run_single_simulation fuel self moves noise = Running).
Proof.
  intros self moves noise.
  destruct (simulation_unfold 0 self moves noise)
    as (foraged & _ & Hinv & Hhome & Hlen & Hdef).
  set (n0 := homing_steps 1 (get_home_distance foraged)).
  assert (Hone : 0 < 1) by lra.
  pose proof (homing_steps_stop 1 (get_home_distance foraged) Hone) as Hstop.
  fold n0 in Hstop.
  assert (Hrun : forall fuel,
            Simulation.run_single_simulation fuel self moves noise
              = outcome_map snd (execute_return_home fuel 1 foraged)).
  { intros fuel. destruct (simulation_unfold fuel self moves noise)
      as (f & Hf & _ & _ & _ & Hdef'). rewrite Hf. congruence. }
  exists n0. split.
  - intros fuel Hfuel. exists (after_iterations n0 1 foraged).
    assert (Hret : execute_return_home fuel 1 foraged
                   = Returns (n0, after_iterations n0 1 foraged)).
    { unfold execute_return_home.
      rewrite (return_home_loop_exact n0 1 Hone foraged fuel 0 Hstop).
      apply Nat.leb_le in Hfuel. rewrite Hfuel. reflexivity. }
    destruct (integrated_after_iterations n0 1 foraged Hinv) as (Hi & Hh & Hl).
    destruct (return_home_loop_returns _ _ _ _ _ _ Hret) as (m & _ & Hm & Hr & Hd).
    split; [rewrite Hrun, Hret; reflexivity |].
    split; [rewrite Hh; exact Hhome |].
    rewrite <- (integrated_true_distance _ Hi).
    split; [reflexivity |].
    split; [rewrite Hr in Hd at 1; simpl in Hm; subst m; exact Hd |].
    unfold home_distances. rewrite length_map, Hl, Hlen. split; lia.
  - intros fuel Hfuel. rewrite Hrun. unfold execute_return_home.
    rewrite (return_home_loop_exact n0 1 Hone foraged fuel 0 Hstop).
    apply Nat.leb_gt in Hfuel. rewrite Hfuel. reflexivity.
Qed.

(** X16. [run_single_simulation] always comes home: for every script and
    noise level there is a number of homing steps (the one the homing loop
    needs from where foraging ended) with which the run returns a rover whose
    true straight-line distance from the simulation's home position is the
    path-integrated home distance and is at most 0.5, with one log entry per
    foraging move and per homing step; with fewer iterations the loop is
    still running. *)
Theorem simulation_always_comes_home :
  forall (self : Simulation.NavigationSimulation) (moves : list (R * R))
         (noise : R),
  exists n0 : nat,
    (forall fuel : nat, (n0 <= fuel)%nat ->
       exists rover : AntInspiredRover,
         Simulation.run_single_simulation fuel self moves noise = Returns rover
         /\ home rover = Simulation.home_position self
         /\ norm (vsub (position rover) (home rover)) = get_home_distance rover
         /\ norm (vsub (position rover) (home rover)) <= 1 / 2
         /\ length (path_history rover) = (1 + length moves + n0)%nat
         /\ length (home_distances rover) = (1 + length moves + n0)%nat)
    /\ (forall fuel : nat, (fuel < n0)%nat ->
          Simulation.run_single_simulation fuel self moves noise = Running).
Proof. exact simulation_comes_home_with_enough_fuel. Qed.

Lemma simulation_always_comes_home_witness :
  exists (n0 : nat) (rover : AntInspiredRover),
    (n0 <= n0)%nat
    /\ Simulation.run_single_simulation n0 Simulation.init
         [(30, 20); (-45, 15); (60, 25)] (1 / 20) = Returns rover
    /\ norm (vsub (position rover) (home rover)) <= 1 / 2.
Proof.
  destruct (simulation_always_comes_home Simulation.init
              [(30, 20); (-45, 15); (60, 25)] (1 / 20)) as (n0 & Hret & _).
  destruct (Hret n0 (le_n n0)) as (rover & Hrun & _ & _ & Hnear & _).
  exists n0, rover. split; [apply le_n |]. split; [exact Hrun | exact Hnear].
Defined.

(** A simulation is its noise-free run with the sensor put in afterwards. *)
Lemma simulation_factors (fuel : nat) (self : Simulation.NavigationSimulation)
  (moves : list (R * R)) :
  exists base : outcome AntInspiredRover,
    forall noise : R,
      Simulation.run_single_simulation fuel self moves noise
        = outcome_map
            (set_sensor
               {| noise_level := noise;
                  sun_azimuth := deg2rad (Simulation.sun_azimuth self) |})
            base.
Proof.
  destruct (simulation_unfold fuel self moves 0) as (f0 & _ & _ & _ & _ & Hf0).
  exists (outcome_map snd (execute_return_home fuel 1 f0)).
  intros noise.
  destruct (simulation_unfold fuel self moves noise)
    as (f & Hrun & _ & _ & _ & Hf).
  rewrite Hrun, Hf.
  rewrite <- (set_sensor_twice _ {| noise_level := 0;
               sun_azimuth := deg2rad (Simulation.sun_azimuth self) |}).
  rewrite <- Hf0.
  unfold execute_return_home. rewrite return_home_loop_set_sensor.
  destruct (return_home_loop fuel 1 0 f0) as [[n r] | e |]; reflexivity.
Qed.

Lemma compare_simulations_rows (fuel : nat)
  (self : Simulation.NavigationSimulation) (base : outcome AntInspiredRover) :
  (forall noise : R,
      Simulation.run_single_simulation fuel self Simulation.standard_pattern
        noise
      = outcome_map
          (set_sensor
             {| noise_level := noise;
                sun_azimuth := deg2rad (Simulation.sun_azimuth self) |})
          base) ->
  forall (levels : list R) (rows : list Simulation.comparison),
    Simulation.compare_simulations fuel self levels = Returns rows ->
    map Simulation.noise rows = levels
    /\ forall row : Simulation.comparison,
         In row rows ->
         exists b : AntInspiredRover,
           base = Returns b
           /\ Simulation.final_error row = norm (vsub (position b) (home b))
           /\ Simulation.total_distance row = distance_traveled b.
Proof.
  intros Hbase levels.
  induction levels as [| level rest IH]; intros rows Hrows;
    cbn [Simulation.compare_simulations] in Hrows.
  - inversion Hrows; subst. split; [reflexivity |]. intros row [].
  - rewrite Hbase in Hrows.
    destruct base as [b | e |]; cbn [outcome_map bind] in Hrows;
      try discriminate.
    destruct (Simulation.compare_simulations fuel self rest) as [rows' | e |];
      cbn [bind] in Hrows; try discriminate.
    inversion Hrows; subst. destruct (IH rows' eq_refl) as [Hmap Hall].
    split; [cbn [map Simulation.noise]; rewrite Hmap; reflexivity |].
    intros row [<- | Hin]; [| apply Hall; exact Hin].
    exists b. repeat split.
Qed.

(** X17. The noise level has no effect on a simulation: two runs of
    [run_single_simulation] that differ only in [sensor_noise] either both
    return, with the same position, heading, home vector, odometer and logs,
    or are both still running.  Hence every row that [compare_simulations]
    collects has the same final error and the same total distance, whatever
    noise levels it is given. *)
Theorem simulation_ignores_sensor_noise :
  forall (fuel : nat) (self : Simulation.NavigationSimulation)
         (moves : list (R * R)) (noise1 noise2 : R),
    (forall r1 : AntInspiredRover,
        Simulation.run_single_simulation fuel self moves noise1 = Returns r1 ->
        exists r2 : AntInspiredRover,
          Simulation.run_single_simulation fuel self moves noise2 = Returns r2
          /\ position r2 = position r1
          /\ heading r2 = heading r1
          /\ home_vector r2 = home_vector r1
          /\ distance_traveled r2 = distance_traveled r1
          /\ path_history r2 = path_history r1
          /\ home_vector_history r2 = home_vector_history r1)
    /\ (Simulation.run_single_simulation fuel self moves noise1 = Running ->
        Simulation.run_single_simulation fuel self moves noise2 = Running)
    /\ (forall (levels : list R) (rows : list Simulation.comparison),
        Simulation.compare_simulations fuel self levels = Returns rows ->
        map Simulation.noise rows = levels
        /\ forall a b : Simulation.comparison,
             In a rows -> In b rows ->
             Simulation.final_error a = Simulation.final_error b
             /\ Simulation.total_distance a = Simulation.total_distance b).
Proof.
  intros fuel self moves noise1 noise2.
  destruct (simulation_factors fuel self moves) as [base Hbase].
  split.
  { intros r1 H1. rewrite Hbase in H1. rewrite Hbase.
    destruct base as [b | e |]; cbn [outcome_map bind] in *; try discriminate.
    inversion H1; subst. eexists. split; [reflexivity |]. repeat split. }
  split.
  { intros H1. rewrite Hbase in H1. rewrite Hbase.
    destruct base as [b | e |]; cbn [outcome_map bind] in *;
      try discriminate. reflexivity. }
  intros levels rows Hrows.
  destruct (simulation_factors fuel self Simulation.standard_pattern)
    as [base' Hbase'].
  destruct (compare_simulations_rows fuel self base' Hbase' levels rows Hrows)
    as [Hmap Hall].
  split; [exact Hmap |].
  intros a b Ha Hb.
  destruct (Hall a Ha) as (ra & Hra & Hea & Hta).
  destruct (Hall b Hb) as (rb & Hrb & Heb & Htb).
  assert (ra = rb) by congruence. subst rb.
  rewrite Hea, Heb, Hta, Htb. split; reflexivity.
Qed.

Lemma simulation_ignores_sensor_noise_witness :
  exists (fuel : nat) (r1 r2 : AntInspiredRover),
    Simulation.run_single_simulation fuel Simulation.init
      Simulation.standard_pattern (1 / 100) = Returns r1
    /\ Simulation.run_single_simulation fuel Simulation.init
         Simulation.standard_pattern (1 / 5) = Returns r2
    /\ position r2 = position r1
    /\ distance_traveled r2 = distance_traveled r1.
Proof.
  destruct (simulation_comes_home_with_enough_fuel Simulation.init
              Simulation.standard_pattern (1 / 100)) as (n0 & Hret & _).
  destruct (Hret n0 (le_n n0)) as (r1 & Hrun1 & _).
  destruct (proj1 (simulation_ignores_sensor_noise n0 Simulation.init
                     Simulation.standard_pattern (1 / 100) (1 / 5)) r1 Hrun1)
    as (r2 & Hrun2 & Hpos & _ & _ & Hodo & _).
  exists n0, r1, r2. repeat split; assumption.
Defined.

Lemma run_append (cs1 cs2 : list command) (w : world) :
  run (cs1 ++ cs2) w = (w' <- run cs1 w ;; run cs2 w').
Proof.
  revert w. induction cs1 as [| c cs1 IH]; intros w; cbn [run app].
  - reflexivity.
  - destruct (exec c w) as [w1 | e |]; cbn [bind]; auto.
Qed.

(** The rover a simulation returns is reached from a new rover by a sequence
    of calls that never touches the generator. *)
Lemma simulation_as_commands (fuel : nat)
  (self : Simulation.NavigationSimulation) (moves : list (R * R))
  (noise : R) (rover : AntInspiredRover) :
  Simulation.run_single_simulation fuel self moves noise = Returns rover ->
  exists (r0 : AntInspiredRover) (cs : list command),
    init (Simulation.home_position self) noise = Returns r0
    /\ forall g : rng, run cs (r0, g) = Returns (rover, g).
Proof.
  unfold Simulation.run_single_simulation. cbn [init Sensor.init bind].
  set (r0 := {| position := Simulation.home_position self |}).
  set (r1 := set_sensor _ r0).
  intros Hrun.
  destruct (execute_return_home fuel 1 (execute_foraging_run moves r1))
    as [[n r'] | e |] eqn:Hret; cbn [bind snd] in Hrun; try discriminate.
  inversion Hrun; subst r'.
  unfold execute_return_home in Hret.
  destruct (return_home_loop_returns _ _ _ _ _ _ Hret) as (m & _ & _ & Hr & _).
  exists r0,
    (SetSunPosition (Simulation.sun_azimuth self)
       :: foraging_commands moves
       ++ homing_commands m 1 (execute_foraging_run moves r1)).
  split; [reflexivity |]. intros g.
  rewrite run_cons. cbn [exec bind]. fold r1.
  rewrite run_append, foraging_run_as_commands. cbn [bind].
  rewrite (proj1 (homing_commands_run m 1 _ g)), Hr. reflexivity.
Qed.

Lemma reached_rover_invariants (start : vec) (noise : R) (g : rng)
  (cs : list command) (r0 : AntInspiredRover) (w : world) :
  init start noise = Returns r0 ->
  run cs (r0, g) = Returns w ->
  integrated (fst w) /\ integrated_log (fst w) /\ logs_current (fst w)
  /\ length (path_history (fst w)) = length (home_vector_history (fst w)).
Proof.
  intros Hinit Hrun.
  destruct (init_returns _ _ _ Hinit) as (Hp & Hh & Hv & _ & _ & Hph & Hvh).
  assert (Hi : integrated (fst w) /\ integrated_log (fst w)).
  { apply (run_ind_returns (fun r => integrated r /\ integrated_log r)
             integrated_exec cs r0 g w Hrun).
    unfold integrated, integrated_log. rewrite Hp, Hh, Hv, Hph, Hvh.
    split; [| constructor; [| constructor]]; symmetry; apply vsub_self. }
  destruct Hi as [Hi Hl]. split; [exact Hi |]. split; [exact Hl |]. split.
  - apply (run_ind_returns logs_current logs_current_exec cs r0 g w Hrun).
    split; intros d; [rewrite Hph, Hp | rewrite Hvh, Hv]; reflexivity.
  - destruct (run_log_lengths cs r0 g w Hrun) as [Hlp Hlv].
    rewrite Hlp, Hlv, Hph, Hvh. reflexivity.
Qed.

Lemma last_of_map {A B : Type} (f : A -> B) (l : list A) (d : A) :
  last (map f l) (f d) = f (last l d).
Proof.
  induction l as [| a [| b l'] IH]; try reflexivity.
  change (last (map f (b :: l')) (f d) = f (last (b :: l') d)). exact IH.
Qed.

Lemma last_default {A : Type} (l : list A) (d d' : A) :
  l <> [] -> last l d = last l d'.
Proof.
  induction l as [| a [| b l'] IH]; intros Hne; try reflexivity.
  - contradiction.
  - change (last (b :: l') d = last (b :: l') d'). apply IH. discriminate.
Qed.

Lemma logged_distances (r : AntInspiredRover) :
  integrated_log r ->
  home_distances r = map norm (home_vector_history r).
Proof.
  unfold integrated_log, home_distances.
  generalize (home r) as hm. intros hm Hall.
  induction Hall as [| p hv ps hvs Hhv Hrest IH]; [reflexivity |].
  cbn [map]. rewrite IH, Hhv. f_equal. apply norm_vsub_sym.
Qed.

(** X18. What the plots show is what path integration computed: for a rover
    reached from a new one by any sequence of calls, and for the rover any
    simulation returns, the distance from home plotted for each logged
    position is the length of the home vector logged with it, there are as
    many of one as of the other, the current home distance is the true
    straight-line distance, and it is the last value plotted. *)
Theorem plotted_distances_are_home_vector_lengths :
  (forall (start : vec) (noise : R) (g : rng) (cs : list command)
          (r0 : AntInspiredRover) (w : world),
      init start noise = Returns r0 ->
      run cs (r0, g) = Returns w ->
      home_distances (fst w) = map norm (home_vector_history (fst w))
      /\ length (home_distances (fst w))
         = length (home_vector_history (fst w))
      /\ get_home_distance (fst w)
         = norm (vsub (position (fst w)) (home (fst w)))
      /\ forall d : R, last (home_distances (fst w)) d
                       = get_home_distance (fst w))
  /\ (forall (fuel : nat) (self : Simulation.NavigationSimulation)
             (moves : list (R * R)) (noise : R) (rover : AntInspiredRover),
      Simulation.run_single_simulation fuel self moves noise = Returns rover ->
      home_distances rover = map norm (home_vector_history rover)
      /\ length (home_distances rover) = length (home_vector_history rover)
      /\ forall d : R, last (home_distances rover) d
                       = get_home_distance rover).
Proof.
  assert (Hreached : forall start noise g cs r0 w,
             init start noise = Returns r0 ->
             run cs (r0, g) = Returns w ->
             home_distances (fst w) = map norm (home_vector_history (fst w))
             /\ length (home_distances (fst w))
                = length (home_vector_history (fst w))
             /\ get_home_distance (fst w)
                = norm (vsub (position (fst w)) (home (fst w)))
             /\ forall d : R, last (home_distances (fst w)) d
                              = get_home_distance (fst w)).
  { intros start noise g cs r0 w Hinit Hrun.
    destruct (reached_rover_invariants _ _ _ _ _ _ Hinit Hrun)
      as (Hi & Hl & [Hlast _] & Hlen).
    split; [apply logged_distances; exact Hl |].
    split; [unfold home_distances; rewrite length_map; exact Hlen |].
    split; [apply integrated_true_distance; exact Hi |].
    intros d.
    assert (Hne : home_distances (fst w) <> []).
    { unfold home_distances. intros Hnil. apply map_eq_nil in Hnil.
      specialize (Hlast (0, 0)). rewrite Hnil in Hlast. simpl in Hlast.
      destruct (run_log_lengths cs r0 g w Hrun) as [Hlp _].
      rewrite Hnil in Hlp.
      destruct (init_returns _ _ _ Hinit) as (_ & _ & _ & _ & _ & Hph & _).
      rewrite Hph in Hlp. simpl in Hlp. lia. }
    rewrite (last_default _ d
               (norm (vsub (position (fst w)) (home (fst w)))) Hne).
    unfold home_distances.
    rewrite (last_of_map (fun pos => norm (vsub pos (home (fst w))))
               (path_history (fst w)) (position (fst w))).
    rewrite Hlast. symmetry. apply integrated_true_distance. exact Hi. }
  split; [exact Hreached |].
  intros fuel self moves noise rover Hrun.
  destruct (simulation_as_commands _ _ _ _ _ Hrun) as (r0 & cs & Hinit & Hcs).
  destruct (Hreached _ _ quiet cs r0 (rover, quiet) Hinit (Hcs quiet))
    as (Hmap & Hlen & _ & Hlast).
  split; [exact Hmap |]. split; [exact Hlen | exact Hlast].
Qed.

Lemma plotted_distances_are_home_vector_lengths_witness :
  exists w : world,
    init (0, 0) (1 / 20) = Returns nest
    /\ run [Turn 45; MoveForward 15; NavigateHome; MoveForward 1]
         (nest, quiet) = Returns w
    /\ home_distances (fst w) = map norm (home_vector_history (fst w)).
Proof.
  eexists. split; [reflexivity |]. split; [reflexivity |].
  exact (proj1 (proj1 plotted_distances_are_home_vector_lengths (0, 0) (1 / 20)
                  quiet [Turn 45; MoveForward 15; NavigateHome; MoveForward 1]
                  nest _ init_nest eq_refl)).
Defined.

(** X19. Homing is idempotent: once [execute_return_home] has returned, a
    second call, with any step size, returns 0 at once and leaves the rover as
    it is. *)
Theorem homing_twice_is_homing_once :
  forall (fuel fuel' : nat) (step_size step_size' : R)
         (r r' : AntInspiredRover) (n : nat),
    execute_return_home fuel step_size r = Returns (n, r') ->
    execute_return_home fuel' step_size' r' = Returns (0%nat, r').
Proof.
  intros fuel fuel' step_size step_size' r r' n Hret.
  unfold execute_return_home in *.
  destruct (return_home_loop_returns _ _ _ _ _ _ Hret) as (m & _ & _ & _ & Hd).
  destruct fuel'; cbn [return_home_loop];
    destruct (Rgt_dec (get_home_distance r') (1 / 2)); try lra; reflexivity.
Qed.

Lemma homing_twice_is_homing_once_witness :
  execute_return_home 1 1 outbound
    = Returns (1%nat, after_iterations 1 1 outbound)
  /\ execute_return_home 0 (-2) (after_iterations 1 1 outbound)
     = Returns (0%nat, after_iterations 1 1 outbound).
Proof.
  assert (Hret : execute_return_home 1 1 outbound
                 = Returns (1%nat, after_iterations 1 1 outbound)).
  { unfold execute_return_home.
    rewrite (return_home_loop_exact 1 1 ltac:(lra) outbound 1 0
               outbound_stops_after_one).
    reflexivity. }
  split; [exact Hret |].
  exact (homing_twice_is_homing_once 1 0 1 (-2) outbound _ 1 Hret).
Defined.
